(** * SumBlock: the grid / match / compaction engine of [App.tsx]

    A shallow embedding of the state-transition logic of the SumBlock
    puzzle (types.ts and App.tsx): the React state cells become one
    record, the [set...] calls of an effect or event handler become
    updates threaded through a small state-and-trace monad, and the
    calls to [Math.random] become explicit draws handed to the
    functions that consume them. *)

From Stdlib Require Import QArith Qround.
From stdpp Require Import base list strings numbers sorting.

Local Open Scope Z_scope.

(** ** types.ts *)

Inductive GameMode := CLASSIC | TIME.
Inductive GameStatus := MENU | PLAYING | GAMEOVER.

Global Instance GameMode_eq_dec : EqDecision GameMode.
Proof. solve_decision. Defined.
Global Instance GameStatus_eq_dec : EqDecision GameStatus.
Proof. solve_decision. Defined.

Record Block := mkBlock {
  id : string;
  value : Z;
  row : Z;
  col : Z;
  isRemoving : option bool
}.

Definition GRID_COLS : Z := 6.
Definition GRID_ROWS : Z := 10.
Definition INITIAL_ROWS : Z := 4.
Definition TIME_LIMIT : Z := 10.

(** The object spread [{ ...b, row: r }]. *)
Definition with_row (b : Block) (r : Z) : Block :=
  {| id := id b; value := value b; row := r; col := col b;
     isRemoving := isRemoving b |}.

(** ** The state cells of [App] *)

Record AppState := mkApp {
  status : GameStatus;
  mode : GameMode;
  blocks : list Block;
  targetSum : Z;
  selectedIds : list string;
  score : Z;
  timeLeft : Z;
  isPaused : bool
}.

Definition set_status (v : GameStatus) (s : AppState) : AppState :=
  mkApp v (mode s) (blocks s) (targetSum s) (selectedIds s) (score s)
        (timeLeft s) (isPaused s).
Definition set_blocks (v : list Block) (s : AppState) : AppState :=
  mkApp (status s) (mode s) v (targetSum s) (selectedIds s) (score s)
        (timeLeft s) (isPaused s).
Definition set_targetSum (v : Z) (s : AppState) : AppState :=
  mkApp (status s) (mode s) (blocks s) v (selectedIds s) (score s)
        (timeLeft s) (isPaused s).
Definition set_selectedIds (v : list string) (s : AppState) : AppState :=
  mkApp (status s) (mode s) (blocks s) (targetSum s) v (score s)
        (timeLeft s) (isPaused s).
Definition set_score (v : Z) (s : AppState) : AppState :=
  mkApp (status s) (mode s) (blocks s) (targetSum s) (selectedIds s) v
        (timeLeft s) (isPaused s).
Definition set_timeLeft (v : Z) (s : AppState) : AppState :=
  mkApp (status s) (mode s) (blocks s) (targetSum s) (selectedIds s) (score s)
        v (isPaused s).

(** ** Pending updates

    An effect or an event handler reads the values of the render it
    closes over and queues updates; React applies the queued updaters of
    a cell in order before the next render, each updater once.  [Upd]
    threads the pending state through the queued updates and records
    the calls that leave the component ([confetti]) and the calls of
    [addRow]. *)

Inductive Call := CallConfetti | CallAddRow.

Global Instance Call_eq_dec : EqDecision Call.
Proof. solve_decision. Defined.

Definition Upd (A : Type) : Type := AppState → A * AppState * list Call.

Definition upd_ret {A} (a : A) : Upd A := λ s, (a, s, []).
Definition upd_bind {A B} (m : Upd A) (k : A → Upd B) : Upd B :=
  λ s, let '(a, s1, t1) := m s in
       let '(b, s2, t2) := k a s1 in
       (b, s2, t1 ++ t2).
Definition upd_get : Upd AppState := λ s, (s, s, []).
Definition upd_modify (f : AppState → AppState) : Upd unit :=
  λ s, (tt, f s, []).
Definition upd_call (c : Call) : Upd unit := λ s, (tt, s, [c]).

Notation "x <- m ;; k" := (upd_bind m (λ x, k))
  (at level 100, m at next level, right associativity).
Notation "m ;; k" := (upd_bind m (λ _, k))
  (at level 100, right associativity).

(** The state of the next render, and the calls made on the way. *)
Definition next {A} (m : Upd A) (s : AppState) : AppState := (m s).1.2.
Definition calls {A} (m : Upd A) (s : AppState) : list Call := (m s).2.

Definition setStatus (v : GameStatus) : Upd unit := upd_modify (set_status v).
Definition setTargetSum (v : Z) : Upd unit := upd_modify (set_targetSum v).
Definition setSelectedIds (f : list string → list string) : Upd unit :=
  upd_modify (λ s, set_selectedIds (f (selectedIds s)) s).
Definition setScore (f : Z → Z) : Upd unit :=
  upd_modify (λ s, set_score (f (score s)) s).

(** ** Randomness

    A result of [Math.random()]: a number in [0, 1), taken as a
    rational.  (The doubles [r * 3] and [r * 9] of the source stay
    below 3 and 9 for every double [r < 1], so their floors range over
    the same values.) *)
Record Random := mkRandom {
  rnd : Q;
  rnd_range : (0 <= rnd)%Q ∧ (rnd < 1)%Q
}.

(** [generateId] returns a string cut from the base-36 digits of a
    random number; the draw gives the string itself. *)
Record TileDraw := mkTileDraw {
  drawId : string;
  drawValue : Random
}.

Definition generateId (d : TileDraw) : string := drawId d.

Definition getRandomValue (d : TileDraw) : Z :=
  Qfloor (rnd (drawValue d) * 9) + 1.

(** ** addRow *)

(** [Array.from({ length: GRID_COLS }).map((_, col) => ...)]; the draw
    of a column gives its id and its value. *)
Definition newRow (d : Z → TileDraw) : list Block :=
  (λ c, {| id := generateId (d c); value := getRandomValue (d c);
           row := GRID_ROWS - 1; col := c; isRemoving := None |})
    <$> seqZ 0 GRID_COLS.

(** [prev.some(b => b.row === 0)] *)
Definition isGameOver (prev : list Block) : bool :=
  bool_decide (Exists (λ b, row b = 0) prev).

(** The updater [addRow] hands to [setBlocks]; it calls [setStatus]
    itself when it rejects the row. *)
Definition addRow_updater (d : Z → TileDraw) (prev : list Block)
  : Upd (list Block) :=
  if isGameOver prev then
    setStatus GAMEOVER ;; upd_ret prev
  else
    let shifted := (λ b, with_row b (row b - 1)) <$> prev in
    upd_ret (shifted ++ newRow d).

Definition setBlocks (f : list Block → Upd (list Block)) : Upd unit :=
  s <- upd_get ;;
  v <- f (blocks s) ;;
  upd_modify (set_blocks v).

Definition addRow (d : Z → TileDraw) : Upd unit :=
  upd_call CallAddRow ;; setBlocks (addRow_updater d).

(** [initGame]: four full rows at the bottom, row by row. *)
Definition initialBlocks (d : Z → Z → TileDraw) : list Block :=
  r ← seqZ (GRID_ROWS - INITIAL_ROWS) INITIAL_ROWS;
  (λ c, {| id := generateId (d r c); value := getRandomValue (d r c);
           row := r; col := c; isRemoving := None |})
    <$> seqZ 0 GRID_COLS.

(** ** generateTarget *)

(** [[...blocks].sort(() => 0.5 - Math.random())]: sorting with a
    comparator that answers at random leaves the elements in an order
    the engine and the draws decide.  The draws name that order by
    saying, for each position of the result in turn, which of the
    elements still left comes next. *)
Fixpoint arrange {A} (n : nat) (order : nat → nat) (l : list A) : list A :=
  match n with
  | O => []
  | S n' =>
      let i := (order n' `mod` length l)%nat in
      match l !! i with
      | Some x => x :: arrange n' order (delete i l)
      | None => []
      end
  end.

Definition shuffle {A} (order : nat → nat) (l : list A) : list A :=
  arrange (length l) order l.

Record TargetDraw := mkTargetDraw {
  drawCount : Random;
  drawOrder : nat → nat
}.

(** [reduce((acc, b) => acc + b.value, 0)] *)
Definition sumValues (l : list Block) : Z :=
  foldl (λ acc b, acc + value b) 0 l.

Definition generateTarget (d : TargetDraw) (blocks : list Block) : Z :=
  if decide (length blocks = 0%nat) then 10
  else
    let count := Qfloor (rnd (drawCount d) * 3) + 2 in
    let shuffled := shuffle (drawOrder d) blocks in
    let sum := sumValues (take (Z.to_nat count) shuffled) in
    Z.max 10 (Z.min sum 45).

Definition initGame (d : Z → Z → TileDraw) (t : TargetDraw)
    (selectedMode : GameMode) : Upd unit :=
  let initial := initialBlocks d in
  upd_modify (set_blocks initial) ;;
  setTargetSum (generateTarget t initial) ;;
  setScore (λ _, 0) ;;
  setSelectedIds (λ _, []) ;;
  upd_modify (λ s, mkApp (status s) selectedMode (blocks s) (targetSum s)
                         (selectedIds s) (score s) (timeLeft s) (isPaused s)) ;;
  setStatus PLAYING ;;
  upd_modify (set_timeLeft TIME_LIMIT) ;;
  upd_modify (λ s, mkApp (status s) (mode s) (blocks s) (targetSum s)
                         (selectedIds s) (score s) (timeLeft s) false).

(** ** Selection *)

(** [blocks.filter(b => selectedIds.includes(b.id)).reduce(...)],
    recomputed at every render. *)
Definition currentSum (s : AppState) : Z :=
  sumValues (filter (λ b, id b ∈ selectedIds s) (blocks s)).

(** The updater of [toggleBlock]. *)
Definition toggle (i : string) (prev : list string) : list string :=
  if decide (i ∈ prev) then filter (λ j, j ≠ i) prev else prev ++ [i].

(** [toggleBlock] reads [status] and [isPaused] of the render whose
    button was clicked. *)
Definition toggleBlock (i : string) (snap : AppState) : Upd unit :=
  if bool_decide (status snap ≠ PLAYING) || isPaused snap then upd_ret tt
  else setSelectedIds (toggle i).

(** ** The match effect *)

(** [Array.prototype.sort] with a comparator: a stable sort, [a] before
    [b] when [cmp a b < 0].  Insertion from the right end keeps equal
    elements in their order. *)
Fixpoint sort_insert {A} (cmp : A → A → Z) (x : A) (l : list A) : list A :=
  match l with
  | [] => [x]
  | y :: l' =>
      if decide (cmp x y ≤ 0) then x :: l else y :: sort_insert cmp x l'
  end.

Definition array_sort {A} (cmp : A → A → Z) (l : list A) : list A :=
  foldr (sort_insert cmp) [] l.

(** The updater the match effect hands to [setBlocks]: drop the removed
    tiles, then column by column push the survivors from the bottom
    row upwards. *)
Definition columnBlocks (c : Z) (remaining : list Block) : list Block :=
  array_sort (λ a b, row b - row a) (filter (λ b, col b = c) remaining).

Definition settle (colBlocks : list Block) : list Block :=
  imap (λ idx b, with_row b (GRID_ROWS - 1 - Z.of_nat idx)) colBlocks.

Definition removeAndCompact (removedIds : list string) (prev : list Block)
  : list Block :=
  let remaining := filter (λ b, id b ∉ removedIds) prev in
  c ← seqZ 0 GRID_COLS; settle (columnBlocks c remaining).

Definition matchEffect (d : Z → TileDraw) (snap : AppState) : Upd unit :=
  if bool_decide (currentSum snap = targetSum snap ∧ targetSum snap > 0) then
    let removedIds := selectedIds snap in
    setScore (λ prev, prev + targetSum snap * Z.of_nat (length removedIds)) ;;
    upd_call CallConfetti ;;
    setBlocks (λ prev, upd_ret (removeAndCompact removedIds prev)) ;;
    setSelectedIds (λ _, []) ;;
    match mode snap with
    | CLASSIC => addRow d
    | TIME => upd_modify (set_timeLeft TIME_LIMIT)
    end
  else if bool_decide (currentSum snap > targetSum snap) then
    setSelectedIds (λ _, [])
  else upd_ret tt.

(** ** The effects keyed on the grid *)

(** [useEffect(body, deps)]: after a render the body runs when a
    dependency differs from its value at the render before. *)
Definition useEffect {D} `{EqDecision D} (deps : AppState → D)
    (body : AppState → Upd unit) (before snap : AppState) : Upd unit :=
  if decide (deps before = deps snap) then upd_ret tt else body snap.

Definition targetBody (t : TargetDraw) (snap : AppState) : Upd unit :=
  if bool_decide (status snap = PLAYING ∧ (0 < length (blocks snap))%nat) then
    setTargetSum (generateTarget t (blocks snap))
  else upd_ret tt.

(** Dependencies [[blocks.length, status]]. *)
Definition targetEffect (t : TargetDraw) : AppState → AppState → Upd unit :=
  useEffect (λ s, (length (blocks s), status s)) (targetBody t).

(** [blocks.some(b => b.row < 0)] while playing. *)
Definition hasOverflow (l : list Block) : bool :=
  bool_decide (Exists (λ b, row b < 0) l).

Definition overflowEffect (snap : AppState) : Upd unit :=
  if bool_decide (status snap = PLAYING) && hasOverflow (blocks snap) then
    setStatus GAMEOVER
  else upd_ret tt.

(** ** The countdown *)

(** The interval exists while the timer effect's condition holds. *)
Definition timerRunning (snap : AppState) : bool :=
  bool_decide (status snap = PLAYING) && bool_decide (mode snap = TIME)
  && negb (isPaused snap).

Definition tickUpdater (d : Z → TileDraw) (prev : Z) : Upd Z :=
  if decide (prev ≤ 1) then addRow d ;; upd_ret TIME_LIMIT
  else upd_ret (prev - 1).

Definition setTimeLeft (f : Z → Upd Z) : Upd unit :=
  s <- upd_get ;;
  v <- f (timeLeft s) ;;
  upd_modify (set_timeLeft v).

(** One firing of the interval callback. *)
Definition tick (d : Z → TileDraw) (snap : AppState) : Upd unit :=
  if timerRunning snap then setTimeLeft (tickUpdater d) else upd_ret tt.

(** An event or effect run on the render it closes over. *)
Definition step (h : AppState → Upd unit) (s : AppState) : AppState :=
  next (h s) s.

(** ** Rounds

    [ticks n] fires the interval callback [n] times in a row, each on
    the render the one before left, and collects the calls. *)
Fixpoint ticks (n : nat) (d : nat → Z → TileDraw) (s : AppState)
  : AppState * list Call :=
  match n with
  | O => (s, [])
  | S n' =>
      let '(s1, t1) := ticks n' d s in
      (next (tick (d n') s1) s1, t1 ++ calls (tick (d n') s1) s1)
  end.

(** A handler or effect run on render [s], then the target effect of
    the render that follows, whose dependencies are compared with those
    of [s]. *)
Definition thenTarget (t : TargetDraw) (h : AppState → Upd unit) (s : AppState)
  : AppState :=
  let s1 := step h s in next (targetEffect t s s1) s1.

(** ** Vocabulary of the statements *)

(** Everything of a tile but its row. *)
Definition tile_data (b : Block) : string * Z * Z * option bool :=
  (id b, value b, col b, isRemoving b).

Definition cell (b : Block) : Z * Z := (row b, col b).

(** Listed from the bottom of the grid upwards. *)
Definition descending {A} (key : A → Z) : list A → Prop :=
  StronglySorted (λ a b, key b ≤ key a).

(** The condition of a match. *)
Definition fires (s : AppState) : Prop :=
  currentSum s = targetSum s ∧ targetSum s > 0.

(** The session once the score, the grid and the selection of a match
    are written, before the row spawn or the countdown reset. *)
Definition resolved (s : AppState) : AppState :=
  set_selectedIds []
    (set_blocks (removeAndCompact (selectedIds s) (blocks s))
       (set_score (score s + targetSum s * Z.of_nat (length (selectedIds s))) s)).

Definition clamp (x : Z) : Z := Z.max 10 (Z.min x 45).

(** ** Sample sessions *)

Definition half : Random.
Proof. by refine (mkRandom (1 # 2) _). Defined.

Definition nineTenths : Random.
Proof. by refine (mkRandom (9 # 10) _). Defined.

Definition tile (i : string) (v r c : Z) : Block := mkBlock i v r c None.

(** Six nines with ids [n0] .. [n5]. *)
Definition ninesRow (c : Z) : TileDraw :=
  mkTileDraw
    match c with
    | 0 => "n0" | 1 => "n1" | 2 => "n2" | 3 => "n3" | 4 => "n4" | _ => "n5"
    end nineTenths.

Definition everyTick (_ : nat) : Z → TileDraw := ninesRow.

(** Three tiles, taken from the front of what is left. *)
Definition frontThree : TargetDraw := mkTargetDraw half (λ _, 0%nat).

(** Two full rows: nines above a bottom row that sums to ten. *)
Definition twoRows : list Block :=
  [ tile "b0" 9 8 0; tile "b1" 9 8 1; tile "b2" 9 8 2;
    tile "b3" 9 8 3; tile "b4" 9 8 4; tile "b5" 9 8 5;
    tile "a0" 1 9 0; tile "a1" 1 9 1; tile "a2" 2 9 2;
    tile "a3" 2 9 3; tile "a4" 2 9 4; tile "a5" 2 9 5 ].

Definition bottomRow : list string := ["a0"; "a1"; "a2"; "a3"; "a4"; "a5"].

Definition session (m : GameMode) (target : Z) (sel : list string) : AppState :=
  mkApp PLAYING m twoRows target sel 0 TIME_LIMIT false.

(** A column that reaches the top row. *)
Definition fullColumn : list Block :=
  [ tile "c0" 3 0 0; tile "c1" 4 1 0; tile "c2" 5 2 0; tile "c3" 6 3 0;
    tile "c4" 7 4 0; tile "c5" 8 5 0; tile "c6" 9 6 0; tile "c7" 1 7 0;
    tile "c8" 2 8 0; tile "c9" 3 9 0; tile "d9" 5 9 1 ].

Definition atTheRoof : AppState :=
  mkApp PLAYING TIME fullColumn 12 [] 0 1 false.

Definition lastTile : list Block := [tile "z" 5 9 0].

(** A CLASSIC session whose selection, the six tiles of the bottom row,
    meets the target; and the render after the match and its row. *)
Definition sixSelected : AppState := session CLASSIC 10 bottomRow.

Definition afterSixCleared : AppState :=
  thenTarget frontThree (matchEffect ninesRow) sixSelected.

(** A TIME session whose last two tiles are selected and meet the
    target; and the render after the match. *)
Definition lastPairSelected : AppState :=
  mkApp PLAYING TIME [tile "p" 9 9 0; tile "q" 9 9 1] 18 ["p"; "q"]
        0 TIME_LIMIT false.

Definition afterLastPair : AppState :=
  thenTarget frontThree (matchEffect ninesRow) lastPairSelected.

(** ** Buttons *)

Definition setIsPaused (v : bool) : Upd unit :=
  upd_modify (λ s, mkApp (status s) (mode s) (blocks s) (targetSum s)
                         (selectedIds s) (score s) (timeLeft s) v).

(** [onClick={() => setIsPaused(!isPaused)}] *)
Definition pauseButton (snap : AppState) : Upd unit :=
  setIsPaused (negb (isPaused snap)).

(** [onClick={() => setIsPaused(false)}] *)
Definition resumeButton (_ : AppState) : Upd unit := setIsPaused false.

(** [onClick={() => setStatus(GameStatus.MENU)}] *)
Definition menuButton (_ : AppState) : Upd unit := setStatus MENU.

(** [onClick={() => initGame(mode)}] *)
Definition tryAgainButton (d : Z → Z → TileDraw) (t : TargetDraw)
    (snap : AppState) : Upd unit :=
  initGame d t (mode snap).

(** The cells as [useState] initialises them. *)
Definition mounted : AppState := mkApp MENU CLASSIC [] 0 [] 0 TIME_LIMIT false.

(** ** The footer *)

(** [Math.floor(score / 5000) + 1] *)
Definition level (score : Z) : Z := Qfloor (inject_Z score / 5000) + 1.

(** [Array.from({ length: 5 }).map((_, i) => i < score / 1000)]: which
    of the five dots are filled. *)
Definition dots (score : Z) : list bool :=
  (λ i, if Qlt_le_dec (inject_Z i) (inject_Z score / 1000) then true else false)
    <$> seqZ 0 5.

(** ** Sessions of the app

    What can happen to a mounted app: a button or tile is clicked, the
    interval fires, or the effects of a commit run.  The effects of one
    commit all read the render they follow and queue their updates one
    after the other, in the order the component declares them; which of
    them run is left open, so every run React allows is among these. *)
Inductive Event :=
  | EvSelectMode (d : Z → Z → TileDraw) (t : TargetDraw) (m : GameMode)
  | EvTryAgain (d : Z → Z → TileDraw) (t : TargetDraw)
  | EvToggle (i : string)
  | EvPause
  | EvResume
  | EvMenu
  | EvTick (d : Z → TileDraw)
  | EvEffects (m : option (Z → TileDraw)) (t : option TargetDraw) (o : bool).

Definition effects (m : option (Z → TileDraw)) (t : option TargetDraw)
    (o : bool) (snap : AppState) : Upd unit :=
  match m with Some d => matchEffect d snap | None => upd_ret tt end ;;
  match t with Some t => targetBody t snap | None => upd_ret tt end ;;
  if o then overflowEffect snap else upd_ret tt.

Definition handle (e : Event) (snap : AppState) : Upd unit :=
  match e with
  | EvSelectMode d t m => initGame d t m
  | EvTryAgain d t => tryAgainButton d t snap
  | EvToggle i => toggleBlock i snap
  | EvPause => pauseButton snap
  | EvResume => resumeButton snap
  | EvMenu => menuButton snap
  | EvTick d => tick d snap
  | EvEffects m t o => effects m t o snap
  end.

Inductive reachable : AppState → Prop :=
  | reach_mounted : reachable mounted
  | reach_step e s : reachable s → reachable (step (handle e) s).

(** ** Grids at rest *)

(** Tiles inside the grid, with the values the generator gives, no two
    on one cell. *)
Definition at_rest (g : list Block) : Prop :=
  Forall (λ b, 0 ≤ row b < GRID_ROWS ∧ 0 ≤ col b < GRID_COLS ∧
               1 ≤ value b ≤ 9) g ∧
  NoDup (cell <$> g).

(** Every cell below a tile holds a tile. *)
Definition gapless (g : list Block) : Prop :=
  ∀ b r, b ∈ g → row b < r < GRID_ROWS →
         ∃ b', b' ∈ g ∧ col b' = col b ∧ row b' = r.

(** The number of tiles left in a column once [removedIds] are gone. *)
Definition columnHeight (removedIds : list string) (g : list Block) (c : Z)
  : nat :=
  length (filter (λ b, col b = c) (filter (λ b, id b ∉ removedIds) g)).

(** A session with grid [g], target [target] and selection [sel]. *)
Definition sessionOf (g : list Block) (target : Z) (sel : list string)
  : AppState :=
  mkApp PLAYING TIME g target sel 0 TIME_LIMIT false.

(** Draws that give every tile the same id and value. *)
Definition sameTile (_ _ : Z) : TileDraw := mkTileDraw "t" half.

(** What holds of a session between events: the grid is at rest and
    has no gaps, and countdown, target, score and selection are in
    range. *)
Definition steady (s : AppState) : Prop :=
  at_rest (blocks s) ∧ gapless (blocks s) ∧
  1 ≤ timeLeft s ≤ TIME_LIMIT ∧
  (targetSum s = 0 ∨ 10 ≤ targetSum s ≤ 36) ∧
  (status s = PLAYING → 10 ≤ targetSum s) ∧
  0 ≤ score s ∧ NoDup (selectedIds s).

(** The first render of a TIME game. *)
Definition firstRender : AppState :=
  step (handle (EvSelectMode sameTile frontThree TIME)) mounted.

(** The removed tiles under tile [b] in its column. *)
Definition removedBelow (removedIds : list string) (g : list Block) (b : Block)
  : nat :=
  length (filter (λ x, col x = col b ∧ row b < row x ∧ id x ∈ removedIds) g).

(** Draws that name each tile of the first grid after its cell and give
    it the value 5. *)
Definition cellName (r c : Z) : string :=
  String (Ascii.ascii_of_nat (Z.to_nat (65 + r)))
    (String (Ascii.ascii_of_nat (Z.to_nat (48 + c))) EmptyString).

Definition namedTiles (r c : Z) : TileDraw := mkTileDraw (cellName r c) half.

(** A TIME game in which the first three tiles of row 6, worth 15, the
    target, are selected. *)
Definition threeSelected : AppState :=
  step (handle (EvToggle (cellName 6 2)))
    (step (handle (EvToggle (cellName 6 1)))
       (step (handle (EvToggle (cellName 6 0)))
          (step (handle (EvSelectMode namedTiles frontThree TIME)) mounted))).

(** What the compaction of [prev] without the tiles of [removedIds]
    is: the tiles left are those of [prev] whose id is not removed, each
    with its id, value and column; in every column they sit on rows 9,
    8, ... without a gap, in the order of their rows in [prev]. *)
Definition compaction_of (removedIds : list string) (prev result : list Block)
  : Prop :=
  tile_data <$> result ≡ₚ tile_data <$> filter (λ b, id b ∉ removedIds) prev ∧
  ∀ c, let news := filter (λ b, col b = c) result in
    row <$> news
      = (λ i : nat, GRID_ROWS - 1 - Z.of_nat i) <$> seq 0 (length news) ∧
    ∃ olds, olds ≡ₚ filter (λ b, col b = c)
                      (filter (λ b, id b ∉ removedIds) prev) ∧
            descending row olds ∧
            Forall2 (λ old new, tile_data new = tile_data old) olds news.

(** The same game after a click on a tile that is gone: the stale id
    joins the three selected. *)
Definition ghostSelected : AppState :=
  step (handle (EvToggle "ghost")) threeSelected.

(** ** The interval of the countdown

    The timer effect starts an interval when its condition holds and
    keeps the handle in [timerRef]; its cleanup, which React runs
    before the effect runs again and at unmount, clears the interval
    whose handle [timerRef] holds, if that handle is truthy.  The
    effect depends on [[status, mode, isPaused, addRow]], and [addRow]
    is one callback for the life of the component
    ([useCallback(..., [])]).  The browser keeps the intervals that
    were set and not cleared; the handles it returns are positive and
    never repeat. *)
Record Timer := mkTimer {
  timerRef : option nat;
  intervals : list nat;
  nextHandle : nat
}.

Definition setInterval (tm : Timer) : nat * Timer :=
  (nextHandle tm,
   mkTimer (timerRef tm) (intervals tm ++ [nextHandle tm]) (S (nextHandle tm))).

Definition clearInterval (i : nat) (tm : Timer) : Timer :=
  mkTimer (timerRef tm) (filter (λ j, j ≠ i) (intervals tm)) (nextHandle tm).

Definition timerBody (snap : AppState) (tm : Timer) : Timer :=
  if timerRunning snap then
    let '(i, tm') := setInterval tm in
    mkTimer (Some i) (intervals tm') (nextHandle tm')
  else tm.

Definition timerCleanup (tm : Timer) : Timer :=
  match timerRef tm with
  | Some i => if decide (i = 0%nat) then tm else clearInterval i tm
  | None => tm
  end.

Definition timerDeps (s : AppState) : GameStatus * GameMode * bool :=
  (status s, mode s, isPaused s).

(** The commit of render [snap], which follows render [before]. *)
Definition timerEffect (before snap : AppState) (tm : Timer) : Timer :=
  if decide (timerDeps before = timerDeps snap) then tm
  else timerBody snap (timerCleanup tm).

Fixpoint timerAfter (before : AppState) (renders : list AppState)
    (tm : Timer) : Timer :=
  match renders with
  | [] => tm
  | snap :: rest => timerAfter snap rest (timerEffect before snap tm)
  end.

(** The timer of a component mounted with render [first] and rendered
    again as [renders]; [n] handles were given out before. *)
Definition timerOf (n : nat) (first : AppState) (renders : list AppState)
  : Timer :=
  timerAfter first renders (timerBody first (mkTimer None [] (S n))).

(** The render the component shows after [renders]. *)
Definition lastRender (first : AppState) (renders : list AppState)
  : AppState :=
  default first (last renders).

(** What the effect and its cleanup keep true of the timer from one
    render to the next. *)
Definition timer_settled (snap : AppState) (tm : Timer) : Prop :=
  nextHandle tm ≠ 0%nat ∧
  if timerRunning snap
  then ∃ i, i ≠ 0%nat ∧ timerRef tm = Some i ∧ intervals tm = [i]
  else intervals tm = [].

(** A second passes: every interval alive runs its callback. *)
Definition fire (d : Z → TileDraw) (tm : Timer) : Upd unit :=
  foldr (λ _ k, setTimeLeft (tickUpdater d) ;; k) (upd_ret tt) (intervals tm).

(** * Proofs *)

(** Unfolds the queued updates down to the tuples they compute. *)
Ltac upd_unfold :=
  cbv [next calls step upd_bind upd_ret upd_get upd_modify upd_call
       setStatus setTargetSum setSelectedIds setScore setBlocks setTimeLeft
       addRow addRow_updater tickUpdater].

(** Closes a decidable goal about sample data by evaluation. *)
Ltac by_evaluation := apply (bool_decide_unpack _); vm_compute; exact I.

(** ** Lists *)

Section lists.
Context {A : Type}.
Implicit Types (P Q : A → Prop) (l : list A).

Lemma filter_all P `{!∀ x, Decision (P x)} l :
  Forall P l → filter P l = l.
Proof.
  induction 1; [done|]. rewrite filter_cons_True by done. by f_equal.
Qed.

Lemma filter_none P `{!∀ x, Decision (P x)} l :
  Forall (λ x, ¬ P x) l → filter P l = [].
Proof. induction 1; [done|]. by rewrite filter_cons_False. Qed.

Lemma filter_comm P Q `{!∀ x, Decision (P x), !∀ x, Decision (Q x)} l :
  filter P (filter Q l) = filter Q (filter P l).
Proof. rewrite !list_filter_filter. apply list_filter_iff. tauto. Qed.

Lemma filter_ext_in P Q `{!∀ x, Decision (P x), !∀ x, Decision (Q x)} l :
  (∀ x, x ∈ l → P x ↔ Q x) → filter P l = filter Q l.
Proof.
  induction l as [|a l IH]; intros Hext; [done|].
  rewrite !filter_cons, IH by (intros; apply Hext; by right).
  apply decide_ext, Hext. left.
Qed.

Lemma imap_pairs (R : A → A → Prop) (f : nat → A → A) l :
  (∀ i x, R x (f i x)) → Forall2 R l (imap f l).
Proof.
  revert f. induction l as [|x l IH]; intros f Hf; simpl; constructor.
  - apply Hf.
  - apply IH. intros i y. apply Hf.
Qed.

Lemma bind_perm_ext {B} (f g : A → list B) (cs : list A) :
  (∀ c, f c ≡ₚ g c) → cs ≫= f ≡ₚ cs ≫= g.
Proof.
  intros H. induction cs as [|c cs IH]; [done|].
  rewrite !bind_cons. by apply Permutation_app.
Qed.

Lemma fmap_bind_list {B C} (h : B → C) (f : A → list B) (cs : list A) :
  h <$> (cs ≫= f) = cs ≫= λ c, h <$> f c.
Proof.
  induction cs as [|c cs IH]; [done|].
  by rewrite !bind_cons, fmap_app, IH.
Qed.

Lemma NoDup_fmap_inj_on {B} (f : A → B) l x y :
  NoDup (f <$> l) → x ∈ l → y ∈ l → f x = f y → x = y.
Proof.
  induction l as [|a l IH]; csimpl; [by intros _ ?%not_elem_of_nil|].
  intros [Ha Hnd]%NoDup_cons [->|Hx]%elem_of_cons [->|Hy]%elem_of_cons E;
    [done| | |by apply IH].
  - destruct Ha. rewrite E. by apply list_elem_of_fmap_2.
  - destruct Ha. rewrite <- E. by apply list_elem_of_fmap_2.
Qed.
End lists.

(** ** [Array.prototype.sort] *)

Section array_sort.
Context {A : Type}.

Lemma sort_insert_perm (cmp : A → A → Z) x l : sort_insert cmp x l ≡ₚ x :: l.
Proof.
  induction l as [|y l IH]; simpl; [done|].
  case_decide; [done|]. rewrite IH. apply Permutation_swap.
Qed.

Lemma array_sort_perm (cmp : A → A → Z) l : array_sort cmp l ≡ₚ l.
Proof.
  induction l as [|x l IH]; simpl; [done|].
  by rewrite sort_insert_perm, IH.
Qed.

Lemma array_sort_length (cmp : A → A → Z) l :
  length (array_sort cmp l) = length l.
Proof. by rewrite array_sort_perm. Qed.

Context (key : A → Z).

Lemma sort_insert_descending x l :
  descending key l →
  descending key (sort_insert (λ a b, key b - key a) x l).
Proof.
  unfold descending.
  induction 1 as [|y l Hl IH Hy]; simpl.
  - repeat constructor.
  - case_decide.
    + constructor; [by constructor|].
      constructor; [lia|].
      eapply Forall_impl; [exact Hy|]. simpl. intros. lia.
    + constructor; [done|].
      rewrite sort_insert_perm. constructor; [lia|done].
Qed.

Lemma array_sort_descending l :
  descending key (array_sort (λ a b, key b - key a) l).
Proof.
  induction l as [|x l IH]; simpl.
  - constructor.
  - by apply sort_insert_descending.
Qed.
End array_sort.

(** ** Compaction *)

Lemma settle_data l : tile_data <$> settle l = tile_data <$> l.
Proof.
  unfold settle. rewrite fmap_imap, <- imap_const. by apply imap_ext.
Qed.

Lemma settle_length l : length (settle l) = length l.
Proof. apply length_imap. Qed.

Lemma settle_rows l :
  row <$> settle l
    = (λ i : nat, GRID_ROWS - 1 - Z.of_nat i) <$> seq 0 (length l).
Proof.
  unfold settle. rewrite fmap_imap, <- imap_seq_0. by apply imap_ext.
Qed.

Lemma settle_pairs l :
  Forall2 (λ old new, tile_data new = tile_data old) l (settle l).
Proof. by apply imap_pairs. Qed.

Lemma settle_col c l :
  Forall (λ b, col b = c) l → Forall (λ b, col b = c) (settle l).
Proof.
  intros H. apply (Forall_fmap col (λ x, x = c)).
  replace (col <$> settle l) with (col <$> l); [by apply Forall_fmap|].
  unfold settle. rewrite fmap_imap, <- imap_const. by apply imap_ext.
Qed.

Lemma columnBlocks_perm c l : columnBlocks c l ≡ₚ filter (λ b, col b = c) l.
Proof. apply array_sort_perm. Qed.

Lemma columnBlocks_col c l : Forall (λ b, col b = c) (columnBlocks c l).
Proof.
  rewrite columnBlocks_perm. apply Forall_forall.
  by intros b [? _]%list_elem_of_filter.
Qed.

(** The tiles of one column of what the column loop builds. *)
Lemma filter_col_bind (f : Z → list Block) cs c :
  NoDup cs → (∀ c', Forall (λ b, col b = c') (f c')) →
  filter (λ b, col b = c) (cs ≫= f) = if decide (c ∈ cs) then f c else [].
Proof.
  intros Hnd Hf. induction Hnd as [|c0 cs Hc0 Hnd IH]; [done|].
  rewrite bind_cons, filter_app, IH.
  destruct (decide (c = c0)) as [->|Hne].
  - rewrite filter_all by apply Hf.
    rewrite decide_False by done.
    rewrite decide_True by left. by rewrite app_nil_r.
  - rewrite filter_none.
    2:{ eapply Forall_impl; [apply Hf|]. simpl. congruence. }
    simpl. repeat case_decide; try done.
    + exfalso. auto using list_elem_of_further.
    + exfalso. by decompose_list_elem_of.
Qed.

(** Splitting a grid by column loses nothing when every column is visited. *)
Lemma columns_partition (l : list Block) cs :
  NoDup cs → Forall (λ b, col b ∈ cs) l →
  (cs ≫= λ c, filter (λ b, col b = c) l) ≡ₚ l.
Proof.
  intros Hnd. revert l. induction Hnd as [|c0 cs Hc0 Hnd IH]; intros l Hl.
  - destruct l as [|b l]; [done|]. apply Forall_cons in Hl as [Hb _].
    by apply not_elem_of_nil in Hb.
  - rewrite bind_cons.
    etrans; [|apply (filter_app_complement (λ b, col b = c0) l)].
    apply Permutation_app; [done|].
    assert (E : (cs ≫= λ c, filter (λ b, col b = c) l) =
                (cs ≫= λ c, filter (λ b, col b = c)
                              (filter (λ b, ¬ col b = c0) l))).
    { apply Forall_bind_ext, Forall_forall. intros c Hc.
      rewrite list_filter_filter. apply list_filter_iff.
      intros b. split; [|tauto]. intros ->. split; [done|]. congruence. }
    rewrite E. apply IH.
    apply Forall_forall. intros b [Hb1 Hb2]%list_elem_of_filter.
    rewrite Forall_forall in Hl. specialize (Hl b Hb2).
    by apply elem_of_cons in Hl as [?|?].
Qed.

Lemma removeAndCompact_column removedIds prev c :
  filter (λ b, col b = c) (removeAndCompact removedIds prev) =
  if decide (c ∈ seqZ 0 GRID_COLS)
  then settle (columnBlocks c (filter (λ b, id b ∉ removedIds) prev))
  else [].
Proof.
  unfold removeAndCompact. apply filter_col_bind.
  - apply NoDup_seqZ.
  - intros c'. apply settle_col, columnBlocks_col.
Qed.

Lemma survivors_in_columns (removedIds : list string) (prev : list Block) :
  Forall (λ b, 0 ≤ col b < GRID_COLS) prev →
  Forall (λ b, col b ∈ seqZ 0 GRID_COLS)
         (filter (λ b, id b ∉ removedIds) prev).
Proof.
  intros Hcol. apply Forall_forall. intros b [_ Hb]%list_elem_of_filter.
  rewrite Forall_forall in Hcol. apply elem_of_seqZ.
  specialize (Hcol b Hb). lia.
Qed.

Lemma removeAndCompact_data removedIds prev :
  Forall (λ b, 0 ≤ col b < GRID_COLS) prev →
  tile_data <$> removeAndCompact removedIds prev
    ≡ₚ tile_data <$> filter (λ b, id b ∉ removedIds) prev.
Proof.
  intros Hsurv%(survivors_in_columns removedIds).
  set (survivors := filter (λ b, id b ∉ removedIds) prev) in *.
  unfold removeAndCompact. fold survivors.
  rewrite fmap_bind_list.
  rewrite (bind_perm_ext _ (λ c, tile_data <$> filter (λ b, col b = c) survivors)).
  - rewrite <- fmap_bind_list. f_equiv.
    apply columns_partition; [apply NoDup_seqZ | done].
  - intros c. by rewrite settle_data, columnBlocks_perm.
Qed.

Lemma removeAndCompact_length removedIds prev :
  Forall (λ b, 0 ≤ col b < GRID_COLS) prev →
  (length (removeAndCompact removedIds prev)
   + length (filter (λ b, id b ∈ removedIds) prev) = length prev)%nat.
Proof.
  intros Hcol.
  rewrite <- (length_fmap tile_data (removeAndCompact _ _)).
  rewrite removeAndCompact_data, length_fmap by done.
  rewrite <- (filter_app_complement (λ b, id b ∈ removedIds) prev) at 3.
  rewrite length_app. lia.
Qed.

(** C2: on a grid whose tiles lie in columns 0..5, [removeAndCompact]
    keeps exactly the tiles whose id is not in the set, each with its
    id, value and column (and [isRemoving]) as before; and in every
    column the tiles left, read in the order the loop pushed them, sit
    on rows [GRID_ROWS-1], [GRID_ROWS-2], ... without a gap and are the
    survivors of that column from the lowest original row upwards. *)
Theorem removeAndCompact_columns
    (removedIds : list string) (prev : list Block) :
  Forall (λ b, 0 ≤ col b < GRID_COLS) prev →
  let survivors := filter (λ b, id b ∉ removedIds) prev in
  let result := removeAndCompact removedIds prev in
  tile_data <$> result ≡ₚ tile_data <$> survivors ∧
  ∀ c, let news := filter (λ b, col b = c) result in
    row <$> news
      = (λ i : nat, GRID_ROWS - 1 - Z.of_nat i) <$> seq 0 (length news) ∧
    ∃ olds, olds ≡ₚ filter (λ b, col b = c) survivors ∧
            descending row olds ∧
            Forall2 (λ old new, tile_data new = tile_data old) olds news.
Proof.
  intros Hcol survivors result.
  split; [by apply removeAndCompact_data|].
  intros c news. unfold news, result.
  rewrite removeAndCompact_column. fold survivors.
  case_decide as Hc.
  - split; [rewrite settle_length; apply settle_rows|].
    exists (columnBlocks c survivors). split_and!.
    + apply columnBlocks_perm.
    + apply array_sort_descending.
    + apply settle_pairs.
  - split; [done|]. exists []. split_and!; [|constructor|constructor].
    rewrite filter_none; [done|].
    eapply Forall_impl; [by apply survivors_in_columns|].
    simpl. congruence.
Qed.

Lemma removeAndCompact_columns_witness :
  tile_data <$> removeAndCompact ["a0"; "b1"] twoRows
    ≡ₚ tile_data <$> filter (λ b, id b ∉ ["a0"; "b1"]) twoRows.
Proof.
  refine (proj1 (removeAndCompact_columns ["a0"; "b1"] twoRows _)).
  by_evaluation.
Defined.

(** A grid whose tiles sit on distinct cells of rows 0..9 has at most
    ten tiles in a column. *)
Lemma column_height (prev : list Block) c :
  Forall (λ b, 0 ≤ row b < GRID_ROWS) prev →
  NoDup (cell <$> prev) →
  (length (filter (λ b, col b = c) prev) ≤ Z.to_nat GRID_ROWS)%nat.
Proof.
  intros Hrow Hnd.
  set (colc := filter (λ b, col b = c) prev).
  assert (Hnd' : NoDup (row <$> colc)).
  { apply NoDup_fmap_2_strong.
    - intros x y [Hx Hx']%list_elem_of_filter [Hy Hy']%list_elem_of_filter Hr.
      apply (NoDup_fmap_inj_on cell prev); [done..|].
      unfold cell. congruence.
    - eapply sublist_NoDup; [|apply sublist_filter].
      by apply NoDup_fmap_1 in Hnd. }
  rewrite <- (length_seqZ 0 GRID_ROWS), <- (length_fmap row colc).
  apply submseteq_length, NoDup_submseteq; [done|].
  intros r (b & -> & [_ Hb]%list_elem_of_filter)%list_elem_of_fmap.
  rewrite Forall_forall in Hrow. apply elem_of_seqZ.
  specialize (Hrow b Hb). lia.
Qed.

(** Compaction of columns of at most ten tiles stays inside the grid. *)
Lemma removeAndCompact_rows (removedIds : list string) (prev : list Block) :
  (∀ c, (length (filter (λ b, col b = c) prev) ≤ Z.to_nat GRID_ROWS)%nat) →
  Forall (λ b, 0 ≤ row b < GRID_ROWS) (removeAndCompact removedIds prev).
Proof.
  intros Hh. unfold removeAndCompact. apply Forall_bind, Forall_forall.
  intros c _. simpl. apply Forall_forall. intros b' Hb'.
  apply elem_of_lookup_imap_1 in Hb' as (i & y & -> & Hi).
  apply lookup_lt_Some in Hi. unfold columnBlocks in Hi.
  rewrite array_sort_length in Hi.
  assert (length (filter (λ b, col b = c)
                    (filter (λ b, id b ∉ removedIds) prev))
          ≤ length (filter (λ b, col b = c) prev))%nat as Hle.
  { rewrite filter_comm. apply length_filter. }
  specialize (Hh c). simpl. unfold GRID_ROWS in *. lia.
Qed.

Lemma hasOverflow_false l :
  Forall (λ b, 0 ≤ row b < GRID_ROWS) l → hasOverflow l = false.
Proof.
  intros H. unfold hasOverflow. apply bool_decide_eq_false_2.
  intros (b & Hb & Hneg)%Exists_exists.
  rewrite Forall_forall in H. specialize (H b Hb). lia.
Qed.

(** C10: on a grid at rest (tiles on distinct cells, rows within
    0..GRID_ROWS-1) every column holds at most GRID_ROWS tiles, and
    whatever is removed, every tile [removeAndCompact] leaves has its
    row within 0..GRID_ROWS-1: none is negative, so the negative-row
    check finds nothing and leaves a session holding that grid as it
    is. *)
Theorem compaction_stays_in_grid
    (removedIds : list string) (prev : list Block) :
  Forall (λ b, 0 ≤ row b < GRID_ROWS) prev →
  NoDup (cell <$> prev) →
  let result := removeAndCompact removedIds prev in
  (∀ c, (length (filter (λ b, col b = c) prev) ≤ Z.to_nat GRID_ROWS)%nat) ∧
  Forall (λ b, 0 ≤ row b < GRID_ROWS) result ∧
  hasOverflow result = false ∧
  ∀ s, blocks s = result → next (overflowEffect s) s = s.
Proof.
  intros Hrow Hnd result.
  assert (Hcols : ∀ c,
    (length (filter (λ b, col b = c) prev) ≤ Z.to_nat GRID_ROWS)%nat).
  { intros c. by apply column_height. }
  assert (Hres : Forall (λ b, 0 ≤ row b < GRID_ROWS) result).
  { by apply removeAndCompact_rows. }
  split_and!; [done|done|by apply hasOverflow_false|].
  intros s Hs. unfold overflowEffect.
  rewrite Hs, hasOverflow_false by done.
  by rewrite andb_false_r.
Qed.

Lemma compaction_stays_in_grid_witness :
  hasOverflow (removeAndCompact ["c3"; "c8"] fullColumn) = false.
Proof.
  refine (proj1 (proj2 (proj2
            (compaction_stays_in_grid ["c3"; "c8"] fullColumn _ _))));
    by_evaluation.
Defined.

(** ** Row spawn *)

Lemma addRow_accepts (d : Z → TileDraw) (s : AppState) :
  ¬ Exists (λ b, row b = 0) (blocks s) →
  next (addRow d) s =
    set_blocks (((λ b, with_row b (row b - 1)) <$> blocks s) ++ newRow d) s.
Proof.
  intros H. upd_unfold. unfold isGameOver.
  by rewrite bool_decide_eq_false_2.
Qed.

Lemma addRow_calls d s : calls (addRow d) s = [CallAddRow].
Proof. upd_unfold. by destruct (isGameOver (blocks s)). Qed.

Lemma length_newRow d : length (newRow d) = 6%nat.
Proof. done. Qed.

(** C1: when some tile occupies row 0, [addRow] changes nothing but the
    status, which becomes GAMEOVER: the grid is the one it was given,
    no tile shifted and none added.  The tile the check looks for is at
    row 0 in the grid as it is before any row is decremented. *)
Theorem addRow_overflow (d : Z → TileDraw) (s : AppState) :
  Exists (λ b, row b = 0) (blocks s) →
  let s' := next (addRow d) s in
  s' = set_status GAMEOVER s ∧ blocks s' = blocks s ∧ status s' = GAMEOVER.
Proof.
  intros H. upd_unfold. unfold isGameOver.
  by rewrite bool_decide_eq_true_2.
Qed.

Lemma addRow_overflow_witness :
  next (addRow ninesRow) atTheRoof = set_status GAMEOVER atTheRoof.
Proof.
  refine (proj1 (addRow_overflow ninesRow atTheRoof _)). by_evaluation.
Defined.

(** ** Match and overshoot *)

Lemma matchEffect_fires d s :
  fires s →
  next (matchEffect d s) s =
    match mode s with
    | CLASSIC => next (addRow d) (resolved s)
    | TIME => set_timeLeft TIME_LIMIT (resolved s)
    end ∧
  calls (matchEffect d s) s =
    match mode s with
    | CLASSIC => [CallConfetti; CallAddRow]
    | TIME => [CallConfetti]
    end.
Proof.
  intros H. unfold matchEffect, fires in *.
  rewrite bool_decide_eq_true_2 by done.
  destruct (mode s); [|done].
  upd_unfold. unfold resolved. simpl.
  by destruct (isGameOver _).
Qed.

Lemma matchEffect_quiet d s :
  ¬ fires s →
  calls (matchEffect d s) s = [] ∧
  next (matchEffect d s) s
    = if bool_decide (currentSum s > targetSum s)
      then set_selectedIds [] s else s.
Proof.
  intros H. unfold matchEffect, fires in *.
  rewrite bool_decide_eq_false_2 by done.
  by case_bool_decide.
Qed.

(** A selection without repeats that names live tiles of a grid with
    distinct ids has as many ids as the grid has selected tiles. *)
Lemma selection_counts_tiles (sel : list string) (l : list Block) :
  NoDup sel → NoDup (id <$> l) → (∀ i, i ∈ sel → i ∈ id <$> l) →
  length sel = length (filter (λ b, id b ∈ sel) l).
Proof.
  intros Hsel Hids Hlive.
  rewrite <- (length_fmap id (filter _ l)).
  apply Permutation_length, NoDup_Permutation; [done| |].
  - eapply sublist_NoDup; [exact Hids|]. apply fmap_sublist, sublist_filter.
  - intros i. rewrite list_elem_of_fmap. split.
    + intros Hi. pose proof (Hlive i Hi) as Hb.
      apply list_elem_of_fmap in Hb as (b & -> & Hb).
      exists b. split; [done|]. by apply list_elem_of_filter.
    + by intros (b & -> & [Hb _]%list_elem_of_filter).
Qed.

Lemma addRow_rejects (d : Z → TileDraw) (s : AppState) :
  Exists (λ b, row b = 0) (blocks s) →
  next (addRow d) s = set_status GAMEOVER s.
Proof.
  intros H. upd_unfold. unfold isGameOver.
  by rewrite bool_decide_eq_true_2.
Qed.

Lemma removeAndCompact_unselected (removedIds : list string) (prev : list Block) :
  Forall (λ b, id b ∉ removedIds) (removeAndCompact removedIds prev).
Proof.
  unfold removeAndCompact. apply Forall_bind, Forall_forall.
  intros c _. simpl. apply Forall_forall. intros b' Hb'.
  apply elem_of_lookup_imap_1 in Hb' as (i & y & -> & Hi).
  apply list_elem_of_lookup_2 in Hi. rewrite columnBlocks_perm in Hi.
  by apply list_elem_of_filter in Hi as [_ [? _]%list_elem_of_filter].
Qed.

Lemma removeAndCompact_compaction (removedIds : list string) (prev : list Block) :
  Forall (λ b, 0 ≤ col b < GRID_COLS) prev →
  compaction_of removedIds prev (removeAndCompact removedIds prev).
Proof.
  intros Hcol. split; [by apply removeAndCompact_data|].
  intros c news. unfold news.
  rewrite removeAndCompact_column.
  set (survivors := filter (λ b, id b ∉ removedIds) prev).
  case_decide as Hc.
  - split; [rewrite settle_length; apply settle_rows|].
    exists (columnBlocks c survivors). split_and!.
    + apply columnBlocks_perm.
    + apply array_sort_descending.
    + apply settle_pairs.
  - split; [done|]. exists []. split_and!; [|constructor|constructor].
    rewrite filter_none; [done|].
    eapply Forall_impl; [by apply survivors_in_columns|].
    simpl. congruence.
Qed.

(** C3, as the code has it: the match branch runs (confetti is fired)
    exactly when [currentSum = targetSum] and [targetSum > 0].  Then
    the score grows by the target times the number of selected ids,
    which is the number of selected tiles when the selection has no
    repeat and names live tiles of a grid with distinct ids; no tile
    with a selected id is left, and on a grid in columns 0..5 what is
    left is the compaction of the grid without them; the selection is
    emptied and the target kept.  In TIME mode that compacted grid is
    the new grid, the countdown is set to TIME_LIMIT, the status stays
    and [addRow] is not called.  In CLASSIC mode [addRow] is called
    and the countdown is left alone: the compacted grid moves up a row
    and gets a new bottom row, or, when it reaches row 0, stays as it
    is with the status GAMEOVER.  Without a match score, grid,
    countdown and status stay as they are; a target of 0 never
    matches. *)
Theorem match_resolution (d : Z → TileDraw) (s : AppState) :
  (CallConfetti ∈ calls (matchEffect d s) s ↔ fires s) ∧
  (fires s →
     let s' := next (matchEffect d s) s in
     let compacted := removeAndCompact (selectedIds s) (blocks s) in
     score s' = score s + targetSum s * Z.of_nat (length (selectedIds s)) ∧
     (NoDup (selectedIds s) → NoDup (id <$> blocks s) →
      (∀ i, i ∈ selectedIds s → i ∈ id <$> blocks s) →
      length (selectedIds s)
        = length (filter (λ b, id b ∈ selectedIds s) (blocks s))) ∧
     selectedIds s' = [] ∧ targetSum s' = targetSum s ∧
     Forall (λ b, id b ∉ selectedIds s) compacted ∧
     (Forall (λ b, 0 ≤ col b < GRID_COLS) (blocks s) →
      compaction_of (selectedIds s) (blocks s) compacted) ∧
     (mode s = TIME →
        blocks s' = compacted ∧ timeLeft s' = TIME_LIMIT ∧
        status s' = status s ∧
        calls (matchEffect d s) s = [CallConfetti]) ∧
     (mode s = CLASSIC →
        calls (matchEffect d s) s = [CallConfetti; CallAddRow] ∧
        timeLeft s' = timeLeft s ∧
        (Exists (λ b, row b = 0) compacted →
           blocks s' = compacted ∧ status s' = GAMEOVER) ∧
        (¬ Exists (λ b, row b = 0) compacted →
           blocks s' = ((λ b, with_row b (row b - 1)) <$> compacted)
                         ++ newRow d ∧
           status s' = status s))) ∧
  (¬ fires s →
     let s' := next (matchEffect d s) s in
     calls (matchEffect d s) s = [] ∧ score s' = score s ∧
     blocks s' = blocks s ∧ timeLeft s' = timeLeft s ∧ status s' = status s) ∧
  (targetSum s = 0 → ¬ fires s).
Proof.
  split_and!.
  - split.
    + intros Hc. destruct (decide (fires s)) as [|Hn]; [done|].
      apply (matchEffect_quiet d) in Hn as [Hn _]. rewrite Hn in Hc.
      by apply not_elem_of_nil in Hc.
    + intros [_ Hc]%(matchEffect_fires d). rewrite Hc.
      destruct (mode s); left.
  - intros [Hn Hc]%(matchEffect_fires d). cbv zeta. rewrite Hn, Hc.
    clear Hn Hc.
    pose proof (removeAndCompact_unselected (selectedIds s) (blocks s)) as Hun.
    pose proof (removeAndCompact_compaction (selectedIds s) (blocks s)) as Hco.
    destruct (mode s).
    + destruct (decide (Exists (λ b, row b = 0)
                          (removeAndCompact (selectedIds s) (blocks s))))
        as [H0|H0].
      * rewrite (addRow_rejects d (resolved s)) by done. simpl.
        split_and!; [done|apply selection_counts_tiles|done..| |];
          [by intros [=]|].
        intros _. split_and!; [done..| |by intros ?]. by intros _.
      * rewrite (addRow_accepts d (resolved s)) by done. simpl.
        split_and!; [done|apply selection_counts_tiles|done..| |];
          [by intros [=]|].
        intros _. split_and!; [done..|by intros ?|]. by intros _.
    + simpl. split_and!; [done|apply selection_counts_tiles|done..| |];
        [by intros _|by intros [=]].
  - intros [Hc Hn]%(matchEffect_quiet d). simpl. rewrite Hn, Hc.
    by case_bool_decide.
  - intros H0 [_ H]. lia.
Qed.

Lemma match_resolution_witness :
  (score (next (matchEffect ninesRow sixSelected) sixSelected) = 60 ∧
   Forall (λ b, id b ∉ bottomRow) (removeAndCompact bottomRow twoRows) ∧
   compaction_of bottomRow twoRows (removeAndCompact bottomRow twoRows) ∧
   blocks (next (matchEffect ninesRow sixSelected) sixSelected)
     = ((λ b, with_row b (row b - 1)) <$> removeAndCompact bottomRow twoRows)
         ++ newRow ninesRow ∧
   status (next (matchEffect ninesRow sixSelected) sixSelected) = PLAYING) ∧
  ¬ fires (session TIME 0 []).
Proof.
  split.
  - destruct (proj1 (proj2 (match_resolution ninesRow sixSelected)))
      as (Hsc & _ & _ & _ & Hun & Hco & _ & Hcl); [by split|].
    destruct (Hcl eq_refl) as (_ & _ & _ & Hacc).
    destruct Hacc as [Hb Hst];
      [apply (bool_decide_eq_false_1 _); by vm_compute|].
    split_and!; [exact Hsc|exact Hun|apply Hco; by_evaluation
                 |exact Hb|exact Hst].
  - refine (proj2 (proj2 (proj2
        (match_resolution ninesRow (session TIME 0 []))) ) _).
    reflexivity.
Defined.

(** C3 as stated fails: in a session the app can reach, the selection
    holds an id that no tile carries beside the ids of three tiles
    worth 15, the target; the match fires and the score grows by
    15 * 4 = 60, not by 15 times the three selected tiles. *)
Lemma match_score_counts_ids_counterexample :
  reachable ghostSelected ∧ fires ghostSelected ∧
  targetSum ghostSelected = 15 ∧
  length (filter (λ b, id b ∈ selectedIds ghostSelected)
            (blocks ghostSelected)) = 3%nat ∧
  score (next (matchEffect ninesRow ghostSelected) ghostSelected)
    = score ghostSelected + 60 ∧
  score (next (matchEffect ninesRow ghostSelected) ghostSelected)
    ≠ score ghostSelected
      + targetSum ghostSelected
        * Z.of_nat (length (filter (λ b, id b ∈ selectedIds ghostSelected)
                              (blocks ghostSelected))).
Proof.
  split_and!; try by vm_compute.
  do 5 apply reach_step. apply reach_mounted.
Qed.

(** C4: when [currentSum > targetSum] the effect empties the selection
    and does nothing else: score, grid, target and every other cell are
    those of before, and no call is made. *)
Theorem overshoot_clears_selection (d : Z → TileDraw) (s : AppState) :
  currentSum s > targetSum s →
  let s' := next (matchEffect d s) s in
  s' = set_selectedIds [] s ∧ calls (matchEffect d s) s = [] ∧
  selectedIds s' = [] ∧ score s' = score s ∧ blocks s' = blocks s ∧
  targetSum s' = targetSum s.
Proof.
  intros H.
  assert (Hn : ¬ fires s) by (unfold fires; lia).
  apply (matchEffect_quiet d) in Hn as [Hc Hn]. simpl.
  by rewrite Hn, Hc, bool_decide_eq_true_2.
Qed.

Lemma overshoot_clears_selection_witness :
  next (matchEffect ninesRow (session CLASSIC 5 ["b0"]))
       (session CLASSIC 5 ["b0"])
    = set_selectedIds [] (session CLASSIC 5 ["b0"]).
Proof.
  refine (proj1 (overshoot_clears_selection ninesRow
                   (session CLASSIC 5 ["b0"]) _)).
  reflexivity.
Defined.

(** ** Selection *)

Lemma toggleBlock_ignored i s :
  status s ≠ PLAYING ∨ isPaused s = true → toggleBlock i s = upd_ret tt.
Proof.
  intros H. unfold toggleBlock.
  destruct H as [H| ->];
    [by rewrite bool_decide_eq_true_2|by rewrite orb_true_r].
Qed.

Lemma toggleBlock_valid i s :
  status s = PLAYING → isPaused s = false →
  step (toggleBlock i) s = set_selectedIds (toggle i (selectedIds s)) s.
Proof.
  intros H1 H2. unfold step, toggleBlock.
  rewrite bool_decide_eq_false_2 by (by intros []). by rewrite H2.
Qed.

Lemma elem_of_toggle (i j : string) prev :
  j ∈ toggle i prev ↔ (j ≠ i ∧ j ∈ prev) ∨ (j = i ∧ i ∉ prev).
Proof.
  unfold toggle. case_decide as Hi.
  - rewrite list_elem_of_filter. intuition congruence.
  - rewrite elem_of_app, list_elem_of_singleton.
    destruct (decide (j = i)); intuition congruence.
Qed.

Lemma toggle_toggle_fresh (i : string) prev :
  i ∉ prev → toggle i (toggle i prev) = prev.
Proof.
  intros Hi. unfold toggle at 2. rewrite decide_False by done.
  unfold toggle. rewrite decide_True by (apply elem_of_app; right; left).
  rewrite filter_app, filter_cons_False, filter_nil, app_nil_r by tauto.
  apply filter_all, Forall_forall. intros j Hj ->. done.
Qed.

Lemma toggle_NoDup (i : string) prev : NoDup prev → NoDup (toggle i prev).
Proof.
  intros H. unfold toggle. case_decide.
  - by apply NoDup_filter.
  - apply NoDup_app. split_and!; [done| |apply NoDup_singleton].
    intros j Hj ->%list_elem_of_singleton. done.
Qed.

(** A stale id in the selection adds nothing to the sum. *)
Lemma currentSum_toggle_stale i s :
  i ∉ id <$> blocks s →
  currentSum (set_selectedIds (toggle i (selectedIds s)) s) = currentSum s.
Proof.
  intros Hi. unfold currentSum. simpl. f_equal.
  apply filter_ext_in. intros b Hb. rewrite elem_of_toggle.
  assert (id b ≠ i) by (intros <-; apply Hi; by apply list_elem_of_fmap_2).
  intuition congruence.
Qed.

(** C9: while PLAYING and unpaused, toggling the same id twice gives
    back a selection with the members it had (up to order when it had
    no repeats), and touches no other cell; when the id was not
    selected the session is exactly the one before, so on the empty
    selection the two toggles give [[A]] and then the empty selection.
    The second toggle undoes the first: the id is selected after one
    toggle exactly when it is not after two. *)
Theorem toggle_twice (i : string) (s : AppState) :
  status s = PLAYING → isPaused s = false →
  let s1 := step (toggleBlock i) s in
  let s2 := step (toggleBlock i) s1 in
  (∀ j, j ∈ selectedIds s2 ↔ j ∈ selectedIds s) ∧
  s2 = set_selectedIds (selectedIds s2) s ∧
  (NoDup (selectedIds s) → selectedIds s2 ≡ₚ selectedIds s) ∧
  (i ∉ selectedIds s → s2 = s) ∧
  (selectedIds s = [] → selectedIds s1 = [i] ∧ selectedIds s2 = []) ∧
  (i ∈ selectedIds s1 ↔ i ∉ selectedIds s2).
Proof.
  intros Hst Hp s1 s2.
  assert (E1 : s1 = set_selectedIds (toggle i (selectedIds s)) s)
    by by apply toggleBlock_valid.
  assert (E2 : s2 = set_selectedIds (toggle i (toggle i (selectedIds s))) s).
  { unfold s2. rewrite toggleBlock_valid; by rewrite E1. }
  assert (Hmem : ∀ j,
    j ∈ toggle i (toggle i (selectedIds s)) ↔ j ∈ selectedIds s).
  { intros j. rewrite !elem_of_toggle.
    destruct (decide (j = i)) as [->|]; [|intuition congruence].
    destruct (decide (i ∈ selectedIds s)); intuition congruence. }
  rewrite E2, E1. simpl. split_and!.
  - done.
  - done.
  - intros Hnd. apply NoDup_Permutation; [|done..].
    by do 2 apply toggle_NoDup.
  - intros Hi. rewrite toggle_toggle_fresh by done. by destruct s.
  - intros ->. rewrite toggle_toggle_fresh by apply not_elem_of_nil.
    split; [|done]. unfold toggle.
    by rewrite decide_False by apply not_elem_of_nil.
  - rewrite Hmem, elem_of_toggle.
    destruct (decide (i ∈ selectedIds s)); intuition congruence.
Qed.

Lemma toggle_twice_witness :
  step (toggleBlock "a0") (step (toggleBlock "a0") (session CLASSIC 10 []))
    = session CLASSIC 10 [].
Proof.
  refine (proj1 (proj2 (proj2 (proj2
            (toggle_twice "a0" (session CLASSIC 10 []) _ _)))) _).
  - reflexivity.
  - reflexivity.
  - apply not_elem_of_nil.
Defined.

(** C6, as the code has it: a toggle while paused or while the status
    is not PLAYING leaves the whole session as it is.  A toggle of an
    id that no tile of the grid carries, made while PLAYING and
    unpaused, is not ignored: the id is toggled in the selection like
    any other (so it is selected afterwards exactly when it was not
    before); grid, score, target, status and the current sum stay as
    they are. *)
Theorem toggle_invalid_intents (i : string) (s : AppState) :
  (status s ≠ PLAYING ∨ isPaused s = true → step (toggleBlock i) s = s) ∧
  (status s = PLAYING → isPaused s = false → i ∉ id <$> blocks s →
     let s' := step (toggleBlock i) s in
     s' = set_selectedIds (toggle i (selectedIds s)) s ∧
     (i ∈ selectedIds s' ↔ i ∉ selectedIds s) ∧
     blocks s' = blocks s ∧ score s' = score s ∧ targetSum s' = targetSum s ∧
     status s' = status s ∧ currentSum s' = currentSum s).
Proof.
  split.
  - intros H. unfold step. by rewrite toggleBlock_ignored.
  - intros H1 H2 Hi. simpl. rewrite toggleBlock_valid by done.
    split_and!; try done.
    + simpl. rewrite elem_of_toggle. intuition congruence.
    + by apply currentSum_toggle_stale.
Qed.

Lemma toggle_invalid_intents_witness :
  step (toggleBlock "a0") (set_status GAMEOVER (session CLASSIC 10 ["b0"]))
    = set_status GAMEOVER (session CLASSIC 10 ["b0"]) ∧
  currentSum (step (toggleBlock "ghost") (session CLASSIC 10 ["b0"]))
    = currentSum (session CLASSIC 10 ["b0"]).
Proof.
  split.
  - refine (proj1 (toggle_invalid_intents "a0"
                     (set_status GAMEOVER (session CLASSIC 10 ["b0"]))) _).
    by left.
  - refine (proj2 (proj2 (proj2 (proj2 (proj2 (proj2 (proj2
              (toggle_invalid_intents "ghost" (session CLASSIC 10 ["b0"]))
              _ _ _))))))).
    + reflexivity.
    + reflexivity.
    + by_evaluation.
Defined.

(** C6 as stated fails: while PLAYING and unpaused, toggling an id that
    no tile carries changes the session (the id enters the
    selection). *)
Lemma toggle_stale_id_counterexample :
  status (session CLASSIC 10 []) = PLAYING ∧
  isPaused (session CLASSIC 10 []) = false ∧
  ("ghost" ∉ id <$> blocks (session CLASSIC 10 [])) ∧
  selectedIds (step (toggleBlock "ghost") (session CLASSIC 10 [])) = ["ghost"] ∧
  step (toggleBlock "ghost") (session CLASSIC 10 []) ≠ session CLASSIC 10 [].
Proof.
  split_and!; try done. by_evaluation.
Qed.

(** ** Countdown *)

Lemma tick_decrement d s :
  timerRunning s = true → 1 < timeLeft s →
  next (tick d s) s = set_timeLeft (timeLeft s - 1) s ∧ calls (tick d s) s = [].
Proof.
  intros Hrun Ht. unfold tick. rewrite Hrun. upd_unfold.
  by rewrite decide_False by lia.
Qed.

Lemma tick_reset d s :
  timerRunning s = true → timeLeft s ≤ 1 →
  next (tick d s) s = set_timeLeft TIME_LIMIT (next (addRow d) s) ∧
  calls (tick d s) s = [CallAddRow].
Proof.
  intros Hrun Ht. unfold tick. rewrite Hrun. upd_unfold.
  rewrite decide_True by lia. by destruct (isGameOver (blocks s)).
Qed.

Lemma tick_timeLeft d s :
  0 ≤ timeLeft s → 0 ≤ timeLeft (next (tick d s) s).
Proof.
  intros Ht. destruct (timerRunning s) eqn:Hrun.
  - destruct (decide (timeLeft s ≤ 1)) as [H1|H1].
    + by destruct (tick_reset d s) as [-> _].
    + destruct (tick_decrement d s) as [-> _]; [done|lia|]. simpl. lia.
  - unfold tick. by rewrite Hrun.
Qed.

Lemma ticks_countdown d s (k : nat) :
  timerRunning s = true → (k < Z.to_nat (timeLeft s))%nat →
  ticks k d s = (set_timeLeft (timeLeft s - Z.of_nat k) s, []).
Proof.
  intros Hrun. induction k as [|k IH]; intros Hk.
  - simpl. rewrite Z.sub_0_r. by destruct s.
  - simpl. rewrite IH by lia.
    destruct (tick_decrement (d k) (set_timeLeft (timeLeft s - Z.of_nat k) s))
      as [Hn Hc]; [done|simpl; lia|].
    rewrite Hn, Hc. simpl. unfold set_timeLeft. simpl. do 2 f_equal. lia.
Qed.

(** C8: while the timer runs (PLAYING, TIME mode, unpaused) a tick
    with more than one second left takes one second off and spawns
    nothing.  From [timeLeft = 10] the first nine ticks leave 9, 8, ...,
    1 and call nothing; the tenth calls [addRow] once, the only call of
    the ten, and leaves [timeLeft = 10].  However many ticks fire,
    [timeLeft] is never negative. *)
Theorem countdown_ten_ticks (d : nat → Z → TileDraw) (s : AppState) :
  timerRunning s = true → timeLeft s = TIME_LIMIT →
  (∀ d' s', timerRunning s' = true → 1 < timeLeft s' →
     next (tick d' s') s' = set_timeLeft (timeLeft s' - 1) s' ∧
     calls (tick d' s') s' = []) ∧
  (∀ k : nat, (k < 10)%nat →
     ticks k d s = (set_timeLeft (TIME_LIMIT - Z.of_nat k) s, [])) ∧
  (ticks 10 d s).2 = [CallAddRow] ∧
  timeLeft (ticks 10 d s).1 = TIME_LIMIT ∧
  (ticks 10 d s).1 = set_timeLeft TIME_LIMIT (next (addRow (d 9%nat)) s) ∧
  (∀ k : nat, 0 ≤ timeLeft (ticks k d s).1).
Proof.
  intros Hrun Ht.
  assert (H9 : ∀ k : nat, (k < 10)%nat →
     ticks k d s = (set_timeLeft (TIME_LIMIT - Z.of_nat k) s, [])).
  { intros k Hk. rewrite <- Ht. apply ticks_countdown; [done|]. rewrite Ht.
    unfold TIME_LIMIT. lia. }
  assert (Hinv : ∀ k : nat, 0 ≤ timeLeft (ticks k d s).1).
  { induction k as [|k IH]; simpl.
    - by rewrite Ht.
    - destruct (ticks k d s) as [s1 t1]. simpl in *.
      by apply tick_timeLeft. }
  destruct (tick_reset (d 9%nat) (set_timeLeft (TIME_LIMIT - Z.of_nat 9) s))
    as [Hn Hc]; [done|simpl; unfold TIME_LIMIT; lia|].
  assert (E : ticks 10 d s
              = (set_timeLeft TIME_LIMIT (next (addRow (d 9%nat)) s),
                 [CallAddRow])).
  { change (ticks 10 d s) with
      (let '(s1, t1) := ticks 9 d s in
       (next (tick (d 9%nat) s1) s1, t1 ++ calls (tick (d 9%nat) s1) s1)).
    rewrite H9 by lia. rewrite Hn, Hc. simpl. f_equal.
    upd_unfold. simpl. by destruct (isGameOver (blocks s)). }
  split_and!; [apply tick_decrement|done|by rewrite E..|done].
Qed.

Lemma countdown_ten_ticks_witness :
  (ticks 10 everyTick (session TIME 10 [])).2 = [CallAddRow] ∧
  timeLeft (ticks 10 everyTick (session TIME 10 [])).1 = TIME_LIMIT.
Proof.
  pose proof (countdown_ten_ticks everyTick (session TIME 10 [])
                eq_refl eq_refl) as (_ & _ & H1 & H2 & _).
  exact (conj H1 H2).
Defined.

(** ** Target *)

(** [Math.floor(Math.random() * n)] is one of 0 .. n-1. *)
Lemma floor_random (r : Random) (n : positive) :
  0 ≤ Qfloor (rnd r * inject_Z (Z.pos n)) < Z.pos n.
Proof.
  destruct r as [q [H0 H1]]. cbn [rnd]. split.
  - change 0 with (Qfloor (inject_Z 0)). apply Qfloor_resp_le.
    change (inject_Z 0) with (0 * inject_Z (Z.pos n))%Q.
    by apply Qmult_le_compat_r.
  - rewrite Zlt_Qlt. eapply Qle_lt_trans; [apply Qfloor_le|].
    rewrite <- (Qmult_1_l (inject_Z (Z.pos n))) at 2.
    by apply Qmult_lt_compat_r.
Qed.

Lemma getRandomValue_range d : 1 ≤ getRandomValue d ≤ 9.
Proof.
  unfold getRandomValue. pose proof (floor_random (drawValue d) 9) as H.
  change (inject_Z 9) with (9 : Q) in H. lia.
Qed.

Lemma arrange_perm {A} (order : nat → nat) (n : nat) (l : list A) :
  length l = n → arrange n order l ≡ₚ l.
Proof.
  revert l. induction n as [|n IH]; intros l Hl.
  - by destruct l.
  - simpl.
    destruct (lookup_lt_is_Some_2 l (order n `mod` length l)%nat) as [x Hx].
    { apply Nat.mod_upper_bound. lia. }
    rewrite Hx. etrans; [|symmetry; apply (delete_Permutation l _ x Hx)].
    constructor. apply IH. rewrite length_delete; [lia|by eexists].
Qed.

Lemma shuffle_perm {A} (order : nat → nat) (l : list A) : shuffle order l ≡ₚ l.
Proof. by apply arrange_perm. Qed.

Lemma sumValues_from (a : Z) (l : list Block) :
  foldl (λ acc b, acc + value b) a l = a + foldr Z.add 0 (value <$> l).
Proof.
  revert a. induction l as [|b l IH]; intros a; csimpl; [lia|].
  rewrite IH. lia.
Qed.

Lemma sumValues_sum l : sumValues l = foldr Z.add 0 (value <$> l).
Proof. unfold sumValues. by rewrite sumValues_from, Z.add_0_l. Qed.

(** C5, as the code has it: [generateTarget] returns 10 for the empty
    list; for a non-empty list it returns the sum of the values of a
    sample drawn without replacement, clamped to [10, 45], where the
    sample has [min k n] tiles for a [k] among 2, 3, 4 and [n] the
    number of tiles (all the tiles when there are fewer than [k]); the
    result always lies in [10, 45]. *)
Theorem generateTarget_spec (t : TargetDraw) (tiles : list Block) :
  (tiles = [] → generateTarget t tiles = 10) ∧
  (tiles ≠ [] →
     ∃ (k : nat) (sample : list Block),
       (k = 2 ∨ k = 3 ∨ k = 4)%nat ∧
       sample ⊆+ tiles ∧
       length sample = (k `min` length tiles)%nat ∧
       generateTarget t tiles = clamp (foldr Z.add 0 (value <$> sample))) ∧
  10 ≤ generateTarget t tiles ≤ 45.
Proof.
  split; [|split].
  - by intros ->.
  - intros Hne. unfold generateTarget.
    rewrite decide_False by (by destruct tiles).
    pose proof (floor_random (drawCount t) 3) as Hc.
    change (inject_Z 3) with (3 : Q) in Hc.
    set (count := Qfloor (rnd (drawCount t) * 3) + 2) in *.
    exists (Z.to_nat count),
           (take (Z.to_nat count) (shuffle (drawOrder t) tiles)).
    split_and!.
    + lia.
    + rewrite <- (shuffle_perm (drawOrder t) tiles) at 2.
      apply sublist_submseteq, sublist_take.
    + by rewrite length_take, shuffle_perm.
    + by rewrite sumValues_sum.
  - unfold generateTarget. case_decide; lia.
Qed.

Lemma generateTarget_spec_witness :
  generateTarget frontThree [] = 10 ∧
  ∃ (k : nat) (sample : list Block),
    (k = 2 ∨ k = 3 ∨ k = 4)%nat ∧
    sample ⊆+ twoRows ∧
    length sample = (k `min` length twoRows)%nat ∧
    generateTarget frontThree twoRows
      = clamp (foldr Z.add 0 (value <$> sample)).
Proof.
  split.
  - exact (proj1 (generateTarget_spec frontThree []) eq_refl).
  - refine (proj1 (proj2 (generateTarget_spec frontThree twoRows)) _).
    discriminate.
Defined.

(** C5 as stated fails: a grid of one tile has no sample of 2, 3 or 4
    tiles to sum. *)
Lemma generateTarget_single_tile_counterexample :
  lastTile ≠ [] ∧
  ¬ ∃ (k : nat) (sample : list Block),
      (k = 2 ∨ k = 3 ∨ k = 4)%nat ∧
      sample ⊆+ lastTile ∧
      length sample = k ∧
      generateTarget frontThree lastTile
        = clamp (foldr Z.add 0 (value <$> sample)).
Proof.
  split; [discriminate|].
  intros (k & sample & Hk & Hsub%submseteq_length & Hlen & _).
  simpl in Hsub. lia.
Qed.

Lemma targetEffect_changed t before snap :
  status snap = PLAYING → blocks snap ≠ [] →
  length (blocks snap) ≠ length (blocks before) →
  next (targetEffect t before snap) snap
    = set_targetSum (generateTarget t (blocks snap)) snap.
Proof.
  intros Hst Hne Hlen. unfold targetEffect, useEffect, targetBody.
  rewrite decide_False by congruence.
  rewrite bool_decide_eq_true_2; [done|].
  split; [done|]. destruct (blocks snap); [done|simpl; lia].
Qed.

Lemma targetEffect_unchanged t before snap :
  status snap = status before →
  length (blocks snap) = length (blocks before) →
  next (targetEffect t before snap) snap = snap.
Proof.
  intros Hst Hlen. unfold targetEffect, useEffect.
  by rewrite decide_True by congruence.
Qed.

(** C7, as the code has it: after a render whose tile count differs
    from that of the render before, while PLAYING with a non-empty
    grid, the target is the one generated from the new grid.  So the
    row a timer tick adds regenerates the target, and so does a CLASSIC
    match followed by its row when the number of tiles removed is not
    6. *)
Theorem target_regeneration (t : TargetDraw) (d : Z → TileDraw) (s : AppState) :
  (∀ s1, status s1 = PLAYING → blocks s1 ≠ [] →
         length (blocks s1) ≠ length (blocks s) →
         next (targetEffect t s s1) s1
           = set_targetSum (generateTarget t (blocks s1)) s1) ∧
  (timerRunning s = true → timeLeft s ≤ 1 →
   ¬ Exists (λ b, row b = 0) (blocks s) →
     let s' := thenTarget t (tick d) s in
     targetSum s' = generateTarget t (blocks s')) ∧
  (status s = PLAYING → mode s = CLASSIC → fires s →
   Forall (λ b, 0 ≤ col b < GRID_COLS) (blocks s) →
   ¬ Exists (λ b, row b = 0) (removeAndCompact (selectedIds s) (blocks s)) →
   length (filter (λ b, id b ∈ selectedIds s) (blocks s)) ≠ 6%nat →
     let s' := thenTarget t (matchEffect d) s in
     targetSum s' = generateTarget t (blocks s')).
Proof.
  split_and!.
  - intros s1. apply targetEffect_changed.
  - intros Hrun Ht H0. unfold thenTarget, step.
    destruct (tick_reset d s Hrun Ht) as [-> _].
    rewrite addRow_accepts by done.
    assert (Hst : status s = PLAYING).
    { unfold timerRunning in Hrun.
      apply andb_true_iff in Hrun as [[H _]%andb_true_iff _].
      by apply bool_decide_eq_true in H. }
    rewrite targetEffect_changed; [done|done| |].
    + simpl. by intros [_ H]%app_eq_nil.
    + simpl. rewrite length_app, length_fmap, length_newRow. lia.
  - intros Hst Hmode Hf Hcol H0 Hk. unfold thenTarget, step.
    destruct (matchEffect_fires d s Hf) as [-> _]. rewrite Hmode.
    rewrite addRow_accepts by done. simpl.
    pose proof (removeAndCompact_length (selectedIds s) (blocks s) Hcol) as Hlen.
    rewrite targetEffect_changed; [done|done| |].
    + simpl. by intros [_ H]%app_eq_nil.
    + simpl. rewrite length_app, length_fmap, length_newRow. lia.
Qed.

Lemma target_regeneration_witness :
  targetSum (thenTarget frontThree (tick ninesRow)
               (mkApp PLAYING TIME twoRows 10 [] 0 1 false))
    = generateTarget frontThree
        (blocks (thenTarget frontThree (tick ninesRow)
                   (mkApp PLAYING TIME twoRows 10 [] 0 1 false))) ∧
  targetSum (thenTarget frontThree (matchEffect ninesRow)
               (session CLASSIC 18 ["b0"; "b1"]))
    = generateTarget frontThree
        (blocks (thenTarget frontThree (matchEffect ninesRow)
                   (session CLASSIC 18 ["b0"; "b1"]))).
Proof.
  split.
  - refine (proj1 (proj2
              (target_regeneration frontThree ninesRow
                 (mkApp PLAYING TIME twoRows 10 [] 0 1 false))) _ _ _).
    + reflexivity.
    + discriminate.
    + apply (bool_decide_eq_false_1 _). by vm_compute.
  - refine (proj2 (proj2
              (target_regeneration frontThree ninesRow
                 (session CLASSIC 18 ["b0"; "b1"]))) _ _ _ _ _ _).
    + reflexivity.
    + reflexivity.
    + by split.
    + by_evaluation.
    + apply (bool_decide_eq_false_1 _). by vm_compute.
    + by vm_compute.
Defined.

(** C7 as stated fails twice.  In TIME mode a match clears the last two
    tiles: the tile count changes, to zero, and the target is still 18,
    not the 10 of the empty grid.  In CLASSIC mode a match clears the
    six selected tiles and the row is spawned: the target is still 10,
    though the new grid, all nines, gives 27 with the same draws. *)
Lemma target_kept_counterexample :
  (fires lastPairSelected ∧
   length (blocks afterLastPair) ≠ length (blocks lastPairSelected) ∧
   targetSum afterLastPair = 18 ∧
   generateTarget frontThree (blocks afterLastPair) = 10) ∧
  (mode sixSelected = CLASSIC ∧ fires sixSelected ∧
   calls (matchEffect ninesRow sixSelected) sixSelected
     = [CallConfetti; CallAddRow] ∧
   status afterSixCleared = PLAYING ∧
   length (blocks afterSixCleared) = length (blocks sixSelected) ∧
   blocks afterSixCleared ≠ blocks sixSelected ∧
   targetSum afterSixCleared = 10 ∧
   generateTarget frontThree (blocks afterSixCleared) = 27).
Proof.
  split_and!; done.
Qed.

(** ** The first grid *)

(** [initGame] starts from a grid at rest: 24 tiles on distinct cells of
    rows 6..9 and columns 0..5, with values 1..9. *)
Lemma initialBlocks_at_rest (d : Z → Z → TileDraw) :
  length (initialBlocks d) = 24%nat ∧
  Forall (λ b, 0 ≤ row b < GRID_ROWS ∧ 0 ≤ col b < GRID_COLS ∧
               1 ≤ value b ≤ 9) (initialBlocks d) ∧
  NoDup (cell <$> initialBlocks d).
Proof.
  split_and!.
  - reflexivity.
  - unfold initialBlocks. apply Forall_bind, Forall_forall.
    intros r Hr%elem_of_seqZ. apply Forall_fmap, Forall_forall.
    intros c Hc%elem_of_seqZ. simpl.
    pose proof (getRandomValue_range (d r c)).
    unfold GRID_ROWS, GRID_COLS, INITIAL_ROWS in *. lia.
  - by_evaluation.
Qed.

Lemma initGame_session d t m s :
  let s' := next (initGame d t m) s in
  status s' = PLAYING ∧ mode s' = m ∧ blocks s' = initialBlocks d ∧
  10 ≤ targetSum s' ≤ 45 ∧ selectedIds s' = [] ∧ score s' = 0 ∧
  timeLeft s' = TIME_LIMIT ∧ isPaused s' = false.
Proof.
  simpl. split_and!; try done;
    change (targetSum _) with (generateTarget t (initialBlocks d));
    unfold generateTarget; case_decide; lia.
Qed.

(** ** The range of the target *)

Lemma generateTarget_range (t : TargetDraw) (g : list Block) :
  10 ≤ generateTarget t g ≤ 45.
Proof. unfold generateTarget. case_decide; lia. Qed.

(** ** Grids at rest *)

Lemma elem_of_newRow d b :
  b ∈ newRow d →
  row b = GRID_ROWS - 1 ∧ 0 ≤ col b < GRID_COLS ∧ 1 ≤ value b ≤ 9.
Proof.
  unfold newRow. intros (c & -> & Hc%elem_of_seqZ)%list_elem_of_fmap. simpl.
  pose proof (getRandomValue_range (d c)). unfold GRID_COLS in *. lia.
Qed.

Lemma newRow_covers d c :
  0 ≤ c < GRID_COLS → ∃ b, b ∈ newRow d ∧ col b = c ∧ row b = GRID_ROWS - 1.
Proof.
  intros Hc.
  exists {| id := generateId (d c); value := getRandomValue (d c);
            row := GRID_ROWS - 1; col := c; isRemoving := None |}.
  split; [|done]. unfold newRow.
  apply (list_elem_of_fmap_2
           (λ c, {| id := generateId (d c); value := getRandomValue (d c);
                    row := GRID_ROWS - 1; col := c; isRemoving := None |})).
  apply elem_of_seqZ. unfold GRID_COLS in *. lia.
Qed.

Lemma no_row0 (g : list Block) b :
  ¬ Exists (λ b, row b = 0) g → b ∈ g → row b ≠ 0.
Proof. intros H Hb E. apply H, Exists_exists. eauto. Qed.

Lemma shifted_at_rest (d : Z → TileDraw) (g : list Block) :
  at_rest g → ¬ Exists (λ b, row b = 0) g →
  at_rest (((λ b, with_row b (row b - 1)) <$> g) ++ newRow d).
Proof.
  intros [Hg Hnd] H0. split.
  - apply Forall_app. split.
    + apply Forall_fmap, Forall_forall. intros b Hb. simpl.
      rewrite Forall_forall in Hg. specialize (Hg b Hb).
      pose proof (no_row0 g b H0 Hb). lia.
    + apply Forall_forall. intros b Hb%(elem_of_newRow d).
      unfold GRID_ROWS in *. lia.
  - rewrite fmap_app. apply NoDup_app. split_and!.
    + rewrite <- list_fmap_compose.
      replace (cell ∘ (λ b, with_row b (row b - 1)))
        with ((λ p : Z * Z, (p.1 - 1, p.2)) ∘ cell) by done.
      rewrite list_fmap_compose. apply NoDup_fmap_2; [|done].
      intros [r1 c1] [r2 c2] [= ? ?]. f_equal; lia.
    + intros p Hp Hp'.
      apply list_elem_of_fmap in Hp as (b1 & -> & Hb1).
      apply list_elem_of_fmap in Hb1 as (b0 & -> & Hb0).
      apply list_elem_of_fmap in Hp' as (b2 & E & Hb2%(elem_of_newRow d)).
      rewrite Forall_forall in Hg. specialize (Hg b0 Hb0).
      injection E as E1 E2. simpl in *. unfold GRID_ROWS in *. lia.
    + by_evaluation.
Qed.

Lemma shifted_gapless (d : Z → TileDraw) (g : list Block) :
  at_rest g → gapless g → ¬ Exists (λ b, row b = 0) g →
  gapless (((λ b, with_row b (row b - 1)) <$> g) ++ newRow d).
Proof.
  intros [Hg _] Hgap H0 b r Hb Hr.
  apply elem_of_app in Hb as [Hb|Hb].
  - apply list_elem_of_fmap in Hb as (b0 & -> & Hb0). simpl in Hr.
    rewrite Forall_forall in Hg. specialize (Hg b0 Hb0).
    destruct (decide (r = GRID_ROWS - 1)) as [->|Hne].
    + destruct (newRow_covers d (col b0)) as (b' & Hb' & Hc & Hrow); [lia|].
      exists b'. split; [apply elem_of_app; by right|done].
    + destruct (Hgap b0 (r + 1) Hb0) as (b1 & Hb1 & Hc1 & Hr1); [lia|].
      exists (with_row b1 (row b1 - 1)). split_and!.
      * apply elem_of_app. left.
        by apply (list_elem_of_fmap_2 (λ b, with_row b (row b - 1))).
      * done.
      * simpl. lia.
  - apply (elem_of_newRow d) in Hb. lia.
Qed.

(** What the column loop pushes. *)
Lemma elem_of_removeAndCompact (removedIds : list string) (g : list Block) b' :
  b' ∈ removeAndCompact removedIds g ↔
  ∃ c (i : nat) y,
    0 ≤ c < GRID_COLS ∧
    columnBlocks c (filter (λ b, id b ∉ removedIds) g) !! i = Some y ∧
    b' = with_row y (GRID_ROWS - 1 - Z.of_nat i).
Proof.
  unfold removeAndCompact. rewrite list_elem_of_bind. split.
  - intros (c & Hb' & Hc%elem_of_seqZ).
    apply elem_of_lookup_imap_1 in Hb' as (i & y & -> & Hi).
    exists c, i, y. unfold GRID_COLS in *. split_and!; [lia..|done|done].
  - intros (c & i & y & Hc & Hi & ->). exists c. split.
    + by apply (elem_of_lookup_imap_2
                  (λ idx b, with_row b (GRID_ROWS - 1 - Z.of_nat idx))).
    + apply elem_of_seqZ. unfold GRID_COLS in *. lia.
Qed.

Lemma elem_of_columnBlocks c (l : list Block) (i : nat) y :
  columnBlocks c l !! i = Some y → y ∈ l ∧ col y = c.
Proof.
  intros Hi%list_elem_of_lookup_2.
  rewrite columnBlocks_perm in Hi.
  apply list_elem_of_filter in Hi as [? ?]. done.
Qed.

Lemma removeAndCompact_cells (removedIds : list string) (g : list Block) :
  NoDup (cell <$> removeAndCompact removedIds g).
Proof.
  unfold removeAndCompact.
  set (f := λ c, settle (columnBlocks c (filter (λ b, id b ∉ removedIds) g))).
  assert (Hcol : ∀ c, Forall (λ b, col b = c) (f c)).
  { intros c. apply settle_col, columnBlocks_col. }
  assert (Hrow : ∀ c, NoDup (cell <$> f c)).
  { intros c. apply (NoDup_fmap_1 fst). rewrite <- list_fmap_compose.
    change (fst ∘ cell) with row. unfold f. rewrite settle_rows.
    apply NoDup_fmap_2; [|apply NoDup_seq].
    intros i j. lia. }
  generalize (NoDup_seqZ 0 GRID_COLS).
  induction 1 as [|c cs Hc Hcs IH]; [constructor|].
  rewrite bind_cons, fmap_app. apply NoDup_app. split_and!; [done| |done].
  intros p (b1 & -> & Hb1)%list_elem_of_fmap (b2 & E & Hb2)%list_elem_of_fmap.
  apply list_elem_of_bind in Hb2 as (c2 & Hb2 & Hc2).
  pose proof (Hcol c) as H1. pose proof (Hcol c2) as H2.
  rewrite Forall_forall in H1, H2.
  specialize (H1 b1 Hb1). specialize (H2 b2 Hb2).
  injection E as _ E. congruence.
Qed.

Lemma removeAndCompact_gapless (removedIds : list string) (g : list Block) :
  gapless (removeAndCompact removedIds g).
Proof.
  intros b r Hb Hr.
  apply elem_of_removeAndCompact in Hb as (c & i & y & Hc & Hi & ->).
  simpl in Hr.
  assert (Hj : (Z.to_nat (GRID_ROWS - 1 - r) < i)%nat) by lia.
  destruct (lookup_lt_is_Some_2
              (columnBlocks c (filter (λ b, id b ∉ removedIds) g))
              (Z.to_nat (GRID_ROWS - 1 - r))) as [y' Hy'].
  { apply lookup_lt_Some in Hi. lia. }
  exists (with_row y' (GRID_ROWS - 1 - Z.of_nat (Z.to_nat (GRID_ROWS - 1 - r)))).
  split_and!.
  - apply elem_of_removeAndCompact.
    by exists c, (Z.to_nat (GRID_ROWS - 1 - r)), y'.
  - simpl. apply elem_of_columnBlocks in Hi as [_ ->].
    by apply elem_of_columnBlocks in Hy' as [_ ->].
  - simpl. lia.
Qed.

Lemma removeAndCompact_at_rest (removedIds : list string) (g : list Block) :
  at_rest g → at_rest (removeAndCompact removedIds g).
Proof.
  intros [Hg Hnd]. split; [|apply removeAndCompact_cells].
  assert (Hrows : Forall (λ b, 0 ≤ row b < GRID_ROWS)
                         (removeAndCompact removedIds g)).
  { apply removeAndCompact_rows. intros c. apply column_height; [|done].
    eapply Forall_impl; [exact Hg|]. simpl. tauto. }
  rewrite Forall_forall in Hrows, Hg. apply Forall_forall. intros b Hb.
  split; [by apply Hrows|].
  apply elem_of_removeAndCompact in Hb as (c & i & y & Hc & Hi & ->).
  apply elem_of_columnBlocks in Hi as [[_ Hy]%list_elem_of_filter Hcy].
  specialize (Hg y Hy). simpl. lia.
Qed.

(** ** Sessions of the app *)

Lemma next_bind {A B} (m : Upd A) (k : Upd B) s :
  next (m ;; k) s = next k (next m s).
Proof.
  unfold next, upd_bind. destruct (m s) as [[a s1] t1]. simpl.
  by destruct (k s1) as [[b s2] t2].
Qed.

Lemma calls_bind {A B} (m : Upd A) (k : Upd B) s :
  calls (m ;; k) s = calls m s ++ calls k (next m s).
Proof.
  unfold calls, next, upd_bind. destruct (m s) as [[a s1] t1]. simpl.
  by destruct (k s1) as [[b s2] t2].
Qed.

Lemma sumValues_le_9 (l : list Block) :
  Forall (λ b, value b ≤ 9) l → sumValues l ≤ 9 * Z.of_nat (length l).
Proof.
  rewrite sumValues_sum. induction 1 as [|b l Hb Hl IH]; csimpl; lia.
Qed.

Lemma generateTarget_le_36 (t : TargetDraw) (g : list Block) :
  Forall (λ b, value b ≤ 9) g → generateTarget t g ≤ 36.
Proof.
  intros Hg. unfold generateTarget. case_decide; [lia|].
  pose proof (floor_random (drawCount t) 3) as Hc.
  change (inject_Z 3) with (3 : Q) in Hc.
  set (count := Qfloor (rnd (drawCount t) * 3) + 2) in *.
  set (sample := take (Z.to_nat count) (shuffle (drawOrder t) g)).
  assert (Hs : Forall (λ b, value b ≤ 9) sample).
  { apply Forall_take. by rewrite shuffle_perm. }
  apply sumValues_le_9 in Hs.
  assert (length sample ≤ 4)%nat.
  { unfold sample. rewrite length_take. lia. }
  lia.
Qed.

Lemma elem_of_initialBlocks d b :
  b ∈ initialBlocks d ↔
  ∃ r c, GRID_ROWS - INITIAL_ROWS ≤ r < GRID_ROWS ∧ 0 ≤ c < GRID_COLS ∧
         b = {| id := generateId (d r c); value := getRandomValue (d r c);
                row := r; col := c; isRemoving := None |}.
Proof.
  unfold initialBlocks. rewrite list_elem_of_bind. split.
  - intros (r & (c & -> & Hc%elem_of_seqZ)%list_elem_of_fmap & Hr%elem_of_seqZ).
    exists r, c. unfold GRID_ROWS, INITIAL_ROWS, GRID_COLS in *.
    split_and!; [lia..|done].
  - intros (r & c & Hr & Hc & ->). exists r. split.
    + apply (list_elem_of_fmap_2
               (λ c, {| id := generateId (d r c);
                        value := getRandomValue (d r c);
                        row := r; col := c; isRemoving := None |})).
      apply elem_of_seqZ. unfold GRID_COLS in *. lia.
    + apply elem_of_seqZ. unfold GRID_ROWS, INITIAL_ROWS in *. lia.
Qed.

Lemma initialBlocks_steady d :
  at_rest (initialBlocks d) ∧ gapless (initialBlocks d).
Proof.
  destruct (initialBlocks_at_rest d) as (_ & Hg & Hnd). split; [done|].
  intros b r (r0 & c & Hr0 & Hc & ->)%elem_of_initialBlocks Hr. simpl in *.
  exists {| id := generateId (d r c); value := getRandomValue (d r c);
            row := r; col := c; isRemoving := None |}.
  split; [|done].
  apply elem_of_initialBlocks. exists r, c.
  unfold GRID_ROWS, INITIAL_ROWS in *. split_and!; try lia; done.
Qed.

Lemma at_rest_values (g : list Block) :
  at_rest g → Forall (λ b, value b ≤ 9) g.
Proof. intros [Hg _]. eapply Forall_impl; [exact Hg|]. simpl. lia. Qed.

Lemma at_rest_no_overflow (g : list Block) : at_rest g → hasOverflow g = false.
Proof.
  intros [Hg _]. apply hasOverflow_false.
  eapply Forall_impl; [exact Hg|]. simpl. tauto.
Qed.

Lemma steady_mounted : steady mounted.
Proof.
  unfold steady, mounted, at_rest, gapless. simpl.
  split_and!; try done; try lia; try constructor.
  intros b r Hb. by apply not_elem_of_nil in Hb.
Qed.

Lemma steady_initGame d t m s : steady (next (initGame d t m) s).
Proof.
  destruct (initialBlocks_steady d) as [Hrest Hgap].
  pose proof (generateTarget_le_36 t _ (at_rest_values _ Hrest)).
  pose proof (generateTarget_range t (initialBlocks d)).
  unfold steady. simpl. split_and!; try done; try lia. constructor.
Qed.

Lemma steady_addRow d s : steady s → steady (next (addRow d) s).
Proof.
  intros (Hrest & Hgap & Ht & Htg & Hpl & Hsc & Hsel).
  destruct (decide (Exists (λ b, row b = 0) (blocks s))) as [H0|H0].
  - rewrite (addRow_rejects d s H0).
    unfold steady. simpl. split_and!; try done; try lia.
  - rewrite addRow_accepts by done. unfold steady. simpl.
    split_and!; try done; try lia.
    + by apply shifted_at_rest.
    + by apply shifted_gapless.
Qed.

Lemma steady_resolved s : fires s → steady s → steady (resolved s).
Proof.
  intros [_ Hpos] (Hrest & Hgap & Ht & Htg & Hpl & Hsc & Hsel).
  unfold steady, resolved. simpl. split_and!; try done; try lia.
  - by apply removeAndCompact_at_rest.
  - apply removeAndCompact_gapless.
  - constructor.
Qed.

Lemma steady_matchEffect d s : steady s → steady (step (matchEffect d) s).
Proof.
  intros Hs. unfold step. destruct (decide (fires s)) as [Hf|Hf].
  - destruct (matchEffect_fires d s Hf) as [-> _].
    pose proof (steady_resolved s Hf Hs) as Hr.
    destruct (mode s); [by apply steady_addRow|].
    destruct Hr as (Hrest & Hgap & Ht & Htg & Hpl & Hsc & Hsel).
    unfold steady, TIME_LIMIT. simpl in *. split_and!; try done; try lia.
  - destruct (matchEffect_quiet d s Hf) as [_ ->].
    case_bool_decide; [|done].
    destruct Hs as (Hrest & Hgap & Ht & Htg & Hpl & Hsc & Hsel).
    unfold steady. simpl. split_and!; try done; try lia. constructor.
Qed.

Lemma steady_tick d s : steady s → steady (step (tick d) s).
Proof.
  intros Hs. unfold step. destruct (timerRunning s) eqn:Hrun.
  - destruct (decide (timeLeft s ≤ 1)) as [H1|H1].
    + destruct (tick_reset d s Hrun H1) as [-> _].
      destruct (steady_addRow d s Hs)
        as (Hrest & Hgap & Ht & Htg & Hpl & Hsc & Hsel).
      unfold steady. simpl. split_and!; try done; try lia.
    + destruct (tick_decrement d s Hrun) as [-> _]; [lia|].
      destruct Hs as (Hrest & Hgap & Ht & Htg & Hpl & Hsc & Hsel).
      unfold steady. simpl. split_and!; try done; lia.
  - unfold tick. by rewrite Hrun.
Qed.

Lemma steady_toggle i s : steady s → steady (step (toggleBlock i) s).
Proof.
  intros Hs. unfold step, toggleBlock.
  destruct (bool_decide (status s ≠ PLAYING) || isPaused s); [done|].
  destruct Hs as (Hrest & Hgap & Ht & Htg & Hpl & Hsc & Hsel).
  unfold steady. simpl. split_and!; try done; try lia. by apply toggle_NoDup.
Qed.

Lemma steady_targetBody t snap p :
  steady snap → steady p → steady (next (targetBody t snap) p).
Proof.
  intros (Hrest & _) (Hrest' & Hgap & Ht & Htg & Hpl & Hsc & Hsel).
  unfold targetBody. case_bool_decide; [|done].
  pose proof (generateTarget_le_36 t _ (at_rest_values _ Hrest)).
  pose proof (generateTarget_range t (blocks snap)).
  unfold steady. simpl. split_and!; try done; lia.
Qed.

Lemma overflowEffect_at_rest snap p :
  at_rest (blocks snap) → next (overflowEffect snap) p = p.
Proof.
  intros H. unfold overflowEffect.
  by rewrite at_rest_no_overflow, andb_false_r.
Qed.

Lemma steady_effects m t o s : steady s → steady (step (effects m t o) s).
Proof.
  intros Hs. unfold step, effects. rewrite !next_bind.
  assert (H1 : steady (next (match m with
                             | Some d => matchEffect d s
                             | None => upd_ret ()
                             end) s)).
  { destruct m as [d|]; [by apply steady_matchEffect|done]. }
  assert (H2 : steady (next (match t with
                             | Some t => targetBody t s
                             | None => upd_ret ()
                             end)
                         (next (match m with
                                | Some d => matchEffect d s
                                | None => upd_ret ()
                                end) s))).
  { destruct t as [t|]; [by apply steady_targetBody|done]. }
  destruct o; [|done].
  rewrite overflowEffect_at_rest; [done|apply Hs].
Qed.

Lemma steady_handle e s : steady s → steady (step (handle e) s).
Proof.
  intros Hs. destruct e; simpl.
  - apply steady_initGame.
  - apply steady_initGame.
  - by apply steady_toggle.
  - destruct Hs as (Hrest & Hgap & Ht & Htg & Hpl & Hsc & Hsel).
    unfold steady. simpl. split_and!; try done; lia.
  - destruct Hs as (Hrest & Hgap & Ht & Htg & Hpl & Hsc & Hsel).
    unfold steady. simpl. split_and!; try done; lia.
  - destruct Hs as (Hrest & Hgap & Ht & Htg & Hpl & Hsc & Hsel).
    unfold steady. simpl. split_and!; try done; lia.
  - by apply steady_tick.
  - by apply steady_effects.
Qed.

Lemma reachable_steady s : reachable s → steady s.
Proof.
  induction 1 as [|e s _ IH]; [apply steady_mounted|by apply steady_handle].
Qed.

Lemma at_rest_length (g : list Block) :
  at_rest g → (length g ≤ Z.to_nat (GRID_ROWS * GRID_COLS))%nat.
Proof.
  intros [Hg Hnd].
  set (cells := r ← seqZ 0 GRID_ROWS; (λ c, (r, c)) <$> seqZ 0 GRID_COLS).
  rewrite <- (length_fmap cell g).
  change (Z.to_nat (GRID_ROWS * GRID_COLS)) with (length cells).
  apply submseteq_length, NoDup_submseteq; [done|].
  intros p (b & -> & Hb)%list_elem_of_fmap.
  rewrite Forall_forall in Hg. specialize (Hg b Hb).
  apply list_elem_of_bind. exists (row b). split.
  - apply (list_elem_of_fmap_2 (λ c, (row b, c))), elem_of_seqZ. lia.
  - apply elem_of_seqZ. lia.
Qed.

(** X1: in every session the app can reach, the grid is at rest: each
    tile is inside the grid (rows 0..9, columns 0..5) with a value in
    1..9, no two tiles share a cell, every cell below a tile holds a
    tile, and there are at most 60 tiles. *)
Theorem reachable_grid (s : AppState) :
  reachable s →
  at_rest (blocks s) ∧ gapless (blocks s) ∧ (length (blocks s) ≤ 60)%nat.
Proof.
  intros (Hrest & Hgap & _)%reachable_steady.
  split_and!; [done|done|].
  by apply at_rest_length in Hrest.
Qed.

Lemma reachable_grid_witness :
  at_rest (blocks firstRender) ∧ gapless (blocks firstRender) ∧
  (length (blocks firstRender) ≤ 60)%nat.
Proof.
  apply reachable_grid. apply reach_step, reach_mounted.
Defined.

Lemma targetBody_status t snap p :
  status (next (targetBody t snap) p) = status p.
Proof. unfold targetBody. by case_bool_decide. Qed.

Lemma targetBody_calls t snap p : calls (targetBody t snap) p = [].
Proof. unfold targetBody. by case_bool_decide. Qed.

Lemma matchEffect_gameover d s :
  status s ≠ GAMEOVER → status (next (matchEffect d s) s) = GAMEOVER →
  CallAddRow ∈ calls (matchEffect d s) s.
Proof.
  intros Hs. destruct (decide (fires s)) as [Hf|Hf].
  - destruct (matchEffect_fires d s Hf) as [-> ->].
    destruct (mode s); [intros _; right; left|done].
  - destruct (matchEffect_quiet d s Hf) as [_ ->]. by case_bool_decide.
Qed.

Lemma toggleBlock_status i s : status (next (toggleBlock i s) s) = status s.
Proof.
  unfold toggleBlock.
  by destruct (bool_decide (status s ≠ PLAYING) || isPaused s).
Qed.

(** X2: in a session the app can reach, the negative-row check finds
    nothing and leaves the session as it is; an event that takes a
    session to GAMEOVER is one in which [addRow] was called. *)
Theorem gameover_only_by_addRow (s : AppState) (e : Event) :
  reachable s →
  step overflowEffect s = s ∧
  (status s ≠ GAMEOVER → status (step (handle e) s) = GAMEOVER →
   CallAddRow ∈ calls (handle e s) s).
Proof.
  intros (Hrest & _)%reachable_steady. split.
  - by apply overflowEffect_at_rest.
  - intros Hs. unfold step.
    destruct e as [d t m|d t|i| | | |d|m t o]; cbn [handle]; try done.
    + by rewrite toggleBlock_status.
    + destruct (timerRunning s) eqn:Hrun.
      * destruct (decide (timeLeft s ≤ 1)) as [H1|H1].
        -- destruct (tick_reset d s Hrun H1) as [_ ->]. intros _. left.
        -- destruct (tick_decrement d s Hrun) as [-> _]; [lia|done].
      * unfold tick. by rewrite Hrun.
    + unfold effects. rewrite !next_bind, !calls_bind.
      assert (Ho : ∀ p, status (next (if o then overflowEffect s
                                      else upd_ret ()) p) = status p).
      { intros p. destruct o; [by rewrite overflowEffect_at_rest|done]. }
      assert (Ht : ∀ p, status (next (match t with
                                      | Some t => targetBody t s
                                      | None => upd_ret ()
                                      end) p) = status p).
      { intros p. destruct t; [apply targetBody_status|done]. }
      rewrite Ho, Ht. destruct m as [d|]; [|done].
      intros Hg%(matchEffect_gameover d s Hs).
      apply elem_of_app. by left.
Qed.

Lemma gameover_only_by_addRow_witness :
  step overflowEffect firstRender = firstRender.
Proof.
  refine (proj1 (gameover_only_by_addRow firstRender EvMenu _)).
  apply reach_step, reach_mounted.
Defined.

(** X3: in every session the app can reach, the countdown is between 1
    and TIME_LIMIT, the score is not negative, the selection has no
    repeated id, and while PLAYING the target is between 10 and 36:
    with tiles worth at most 9 and samples of at most 4 the ceiling of
    45 is never met. *)
Theorem reachable_ranges (s : AppState) :
  reachable s →
  1 ≤ timeLeft s ≤ TIME_LIMIT ∧ 0 ≤ score s ∧ NoDup (selectedIds s) ∧
  0 ≤ currentSum s ∧
  (status s = PLAYING → 10 ≤ targetSum s ≤ 36).
Proof.
  intros (Hrest & Hgap & Ht & Htg & Hpl & Hsc & Hsel)%reachable_steady.
  split_and!; [lia..|done|done| |intros Hp; specialize (Hpl Hp); lia].
  unfold currentSum. rewrite sumValues_sum.
  destruct Hrest as [Hg _].
  assert (Hf : Forall (λ b, 0 ≤ value b)
                 (filter (λ b, id b ∈ selectedIds s) (blocks s))).
  { apply Forall_forall. intros b [_ Hb]%list_elem_of_filter.
    rewrite Forall_forall in Hg. specialize (Hg b Hb). lia. }
  induction Hf; csimpl; lia.
Qed.

Lemma reachable_ranges_witness :
  1 ≤ timeLeft firstRender ≤ TIME_LIMIT ∧ 0 ≤ score firstRender ∧
  NoDup (selectedIds firstRender) ∧ 0 ≤ currentSum firstRender ∧
  (status firstRender = PLAYING → 10 ≤ targetSum firstRender ≤ 36).
Proof.
  apply reachable_ranges. apply reach_step, reach_mounted.
Defined.

(** ** More on the match effect *)

Lemma currentSum_no_selection s : selectedIds s = [] → currentSum s = 0.
Proof.
  intros E. unfold currentSum. rewrite E, filter_none; [done|].
  apply Forall_forall. intros b _. apply not_elem_of_nil.
Qed.

Lemma addRow_selection d s :
  selectedIds (next (addRow d) s) = selectedIds s ∧
  targetSum (next (addRow d) s) = targetSum s.
Proof. upd_unfold. by destruct (isGameOver (blocks s)). Qed.

(** X4: the match effect settles in one run.  Run again on the render
    it leaves, whatever the draws, it changes nothing and calls
    nothing: a match is scored once and its tiles are removed once. *)
Theorem matchEffect_settles (d d' : Z → TileDraw) (s : AppState) :
  let s1 := step (matchEffect d) s in
  step (matchEffect d') s1 = s1 ∧ calls (matchEffect d' s1) s1 = [].
Proof.
  simpl. unfold step.
  assert (Hquiet : ∀ s1, selectedIds s1 = [] →
            ¬ fires s1 ∧
            (currentSum s1 > targetSum s1 → set_selectedIds [] s1 = s1)).
  { intros s1 E. pose proof (currentSum_no_selection s1 E) as H0.
    split; [unfold fires; lia|]. intros _. destruct s1. simpl in *. by subst. }
  assert (Hgo : ∀ s1, selectedIds s1 = [] →
            next (matchEffect d' s1) s1 = s1 ∧ calls (matchEffect d' s1) s1 = []).
  { intros s1 E. destruct (Hquiet s1 E) as [Hf Hset].
    destruct (matchEffect_quiet d' s1 Hf) as [-> ->].
    split; [|done]. case_bool_decide; [by apply Hset|done]. }
  destruct (decide (fires s)) as [Hf|Hf].
  - destruct (matchEffect_fires d s Hf) as [-> _].
    apply Hgo. destruct (mode s); [|done].
    by rewrite (proj1 (addRow_selection d (resolved s))).
  - destruct (matchEffect_quiet d s Hf) as [_ ->].
    case_bool_decide as Hov; [by apply Hgo|].
    destruct (matchEffect_quiet d' s Hf) as [-> ->].
    by rewrite bool_decide_eq_false_2.
Qed.

(** ** More on the selection *)

Lemma sum_filter_cons (P : Block → Prop) `{!∀ b, Decision (P b)} b l :
  sumValues (filter P (b :: l))
    = (if decide (P b) then value b else 0) + sumValues (filter P l).
Proof.
  rewrite filter_cons, !sumValues_sum. by case_decide.
Qed.

Lemma currentSum_toggle_in (i : string) (sel : list string) (l : list Block) b :
  NoDup (id <$> l) → b ∈ l → id b = i →
  sumValues (filter (λ b, id b ∈ toggle i sel) l)
    = sumValues (filter (λ b, id b ∈ sel) l)
      + (if decide (i ∈ sel) then - value b else value b).
Proof.
  intros Hnd Hb Hi. induction l as [|a l IH]; [by apply not_elem_of_nil in Hb|].
  rewrite fmap_cons in Hnd. apply NoDup_cons in Hnd as [Ha Hnd].
  rewrite !sum_filter_cons.
  apply elem_of_cons in Hb as [->|Hb].
  - assert (E : filter (λ b, id b ∈ toggle i sel) l
                = filter (λ b, id b ∈ sel) l).
    { apply filter_ext_in. intros x Hx. rewrite elem_of_toggle.
      assert (id x ≠ i).
      { intros Hxi. apply Ha. rewrite Hi, <- Hxi.
        by apply list_elem_of_fmap_2. }
      intuition congruence. }
    rewrite E, Hi.
    destruct (decide (i ∈ sel)) as [Hin|Hin].
    + rewrite decide_False by (rewrite elem_of_toggle; tauto). lia.
    + rewrite decide_True by (rewrite elem_of_toggle; tauto). lia.
  - rewrite IH by done.
    assert (id a ≠ i).
    { intros Hai. apply Ha. rewrite Hai, <- Hi. by apply list_elem_of_fmap_2. }
    assert (Hiff : id a ∈ toggle i sel ↔ id a ∈ sel).
    { rewrite elem_of_toggle. intuition congruence. }
    destruct (decide (id a ∈ sel)).
    + rewrite decide_True by tauto. lia.
    + rewrite decide_False by tauto. lia.
Qed.

(** X5: on a grid whose ids are distinct, while PLAYING and unpaused, a
    click on a live tile changes the current sum by exactly that
    tile's value: added when the tile was not selected, taken off when
    it was. *)
Theorem toggle_changes_sum_by_value (s : AppState) (b : Block) :
  status s = PLAYING → isPaused s = false →
  NoDup (id <$> blocks s) → b ∈ blocks s →
  currentSum (step (toggleBlock (id b)) s)
    = if decide (id b ∈ selectedIds s)
      then currentSum s - value b else currentSum s + value b.
Proof.
  intros Hst Hp Hnd Hb. rewrite toggleBlock_valid by done.
  unfold currentSum. simpl.
  rewrite (currentSum_toggle_in (id b) _ _ b) by done.
  case_decide; lia.
Qed.

Lemma toggle_changes_sum_by_value_witness :
  currentSum (step (toggleBlock "a2") (session TIME 10 ["b0"]))
    = currentSum (session TIME 10 ["b0"]) + 2.
Proof.
  refine (toggle_changes_sum_by_value (session TIME 10 ["b0"])
            (tile "a2" 2 9 2) _ _ _ _).
  - reflexivity.
  - reflexivity.
  - by_evaluation.
  - apply list_elem_of_In. simpl. tauto.
Defined.

(** ** More on the countdown *)

Lemma tick_idle d s :
  timerRunning s = false → tick d s s = ((), s, []).
Proof. intros H. unfold tick. by rewrite H. Qed.

Lemma ticks_idle d s n : timerRunning s = false → ticks n d s = (s, []).
Proof.
  intros Hrun. induction n as [|n IH]; [done|].
  simpl. rewrite IH. unfold next, calls. by rewrite tick_idle.
Qed.

(** ** The interval behind the countdown *)

Lemma timerRunning_deps (before snap : AppState) :
  timerDeps before = timerDeps snap → timerRunning before = timerRunning snap.
Proof. unfold timerDeps, timerRunning. by intros [= -> -> ->]. Qed.

Lemma timerCleanup_settled (snap : AppState) (tm : Timer) :
  timer_settled snap tm →
  intervals (timerCleanup tm) = [] ∧
  nextHandle (timerCleanup tm) = nextHandle tm.
Proof.
  intros [_ H]. unfold timerCleanup.
  destruct (timerRunning snap).
  - destruct H as (i & Hi & -> & Hl). rewrite decide_False by done.
    simpl. rewrite Hl. split; [|done].
    by rewrite filter_cons_False, filter_nil by (by intros ?).
  - destruct (timerRef tm) as [i|]; [|done].
    case_decide; [done|]. simpl. by rewrite H.
Qed.

Lemma timerBody_settled (snap : AppState) (tm : Timer) :
  intervals tm = [] → nextHandle tm ≠ 0%nat →
  timer_settled snap (timerBody snap tm).
Proof.
  intros Hl Hn. unfold timer_settled, timerBody.
  destruct (timerRunning snap); simpl; [|done].
  split; [done|]. exists (nextHandle tm). by rewrite Hl.
Qed.

Lemma timerEffect_settled (before snap : AppState) (tm : Timer) :
  timer_settled before tm → timer_settled snap (timerEffect before snap tm).
Proof.
  intros H. unfold timerEffect. case_decide as Hd.
  - unfold timer_settled. by rewrite <- (timerRunning_deps _ _ Hd).
  - destruct (timerCleanup_settled _ _ H) as [Hl Hn].
    apply timerBody_settled; [done|]. rewrite Hn. apply H.
Qed.

Lemma timerAfter_settled (before : AppState) (renders : list AppState)
    (tm : Timer) :
  timer_settled before tm →
  timer_settled (lastRender before renders) (timerAfter before renders tm).
Proof.
  revert before tm. induction renders as [|snap rest IH]; intros before tm H.
  - done.
  - cbn [timerAfter].
    replace (lastRender before (snap :: rest)) with (lastRender snap rest).
    + by apply IH, timerEffect_settled.
    + unfold lastRender. rewrite last_cons. by destruct (last rest).
Qed.

Lemma fire_one (d : Z → TileDraw) (tm : Timer) (i : nat) (s : AppState) :
  intervals tm = [i] → fire d tm s = setTimeLeft (tickUpdater d) s.
Proof.
  intros Hl. unfold fire. rewrite Hl. cbn [foldr]. unfold upd_bind, upd_ret.
  destruct (setTimeLeft (tickUpdater d) s) as [[[] s'] t].
  by rewrite app_nil_r.
Qed.

(** A game paused and resumed: the first interval is cleared at the
    pause and a second one started at the resume. *)
Example interval_restarted :
  timerOf 0 (session TIME 10 [])
    [step pauseButton (session TIME 10 []); session TIME 10 []]
  = mkTimer (Some 2%nat) [2%nat] 3 ∧
  timerOf 0 (session TIME 10 []) [step pauseButton (session TIME 10 [])]
  = mkTimer (Some 1%nat) [] 2.
Proof. split; by vm_compute. Qed.

(** X6: however the component was rendered since it was mounted, the
    timer effect and its cleanup leave exactly one interval alive, the
    one [timerRef] holds, when the last render is PLAYING in TIME mode
    and not paused, and none otherwise; so a second that passes runs
    the callback once in the first case and changes nothing in the
    second; and unmounting leaves no interval behind. *)
Theorem interval_follows_render (n : nat) (first : AppState)
    (renders : list AppState) :
  let tm := timerOf n first renders in
  let snap := lastRender first renders in
  (status snap = PLAYING ∧ mode snap = TIME ∧ isPaused snap = false ↔
   ∃ i, timerRef tm = Some i ∧ intervals tm = [i]) ∧
  (status snap ≠ PLAYING ∨ mode snap ≠ TIME ∨ isPaused snap = true ↔
   intervals tm = []) ∧
  (∀ d s, fire d tm s = tick d snap s) ∧
  (∀ d s, intervals tm = [] → fire d tm s = ((), s, [])) ∧
  intervals (timerCleanup tm) = [].
Proof.
  intros tm snap.
  assert (Hs : timer_settled snap tm).
  { apply timerAfter_settled, timerBody_settled; done. }
  assert (Hrun : timerRunning snap = true ↔
            status snap = PLAYING ∧ mode snap = TIME ∧ isPaused snap = false).
  { unfold timerRunning.
    rewrite !andb_true_iff, !bool_decide_eq_true, negb_true_iff. tauto. }
  assert (Hidle : timerRunning snap = false ↔
            status snap ≠ PLAYING ∨ mode snap ≠ TIME ∨ isPaused snap = true).
  { unfold timerRunning.
    rewrite !andb_false_iff, !bool_decide_eq_false, negb_false_iff. tauto. }
  destruct (timerCleanup_settled _ _ Hs) as [Hclean _].
  destruct Hs as [_ Hs]. rewrite <- Hrun, <- Hidle.
  split_and!; [| | | |done].
  - destruct (timerRunning snap).
    + destruct Hs as (i & _ & ? & ?). split; [eauto|done].
    + split; [done|]. intros (i & _ & Hi). by rewrite Hs in Hi.
  - destruct (timerRunning snap).
    + destruct Hs as (i & _ & _ & Hi). split; [done|]. by rewrite Hi.
    + done.
  - intros d s. unfold tick. destruct (timerRunning snap).
    + destruct Hs as (i & _ & _ & Hi). by apply (fire_one d tm i).
    + unfold fire. by rewrite Hs.
  - intros d s Hl. unfold fire. by rewrite Hl.
Qed.

(** ** A match and its row *)

Lemma columnBlocks_length c (l : list Block) :
  length (columnBlocks c l) = length (filter (λ b, col b = c) l).
Proof. apply array_sort_length. Qed.

Lemma compacted_row0 (removedIds : list string) (g : list Block) :
  Exists (λ b, row b = 0) (removeAndCompact removedIds g) ↔
  ∃ c, 0 ≤ c < GRID_COLS ∧
       (Z.to_nat GRID_ROWS ≤ columnHeight removedIds g c)%nat.
Proof.
  unfold columnHeight. rewrite Exists_exists. split.
  - intros (b & (c & i & y & Hc & Hi & ->)%elem_of_removeAndCompact & H0).
    simpl in H0. exists c. split; [done|].
    apply lookup_lt_Some in Hi. rewrite columnBlocks_length in Hi.
    unfold GRID_ROWS in *. lia.
  - intros (c & Hc & Hlen).
    destruct (lookup_lt_is_Some_2
                (columnBlocks c (filter (λ b, id b ∉ removedIds) g)) 9)
      as [y Hy].
    { rewrite columnBlocks_length. unfold GRID_ROWS in *. lia. }
    exists (with_row y (GRID_ROWS - 1 - Z.of_nat 9)). split; [|done].
    apply elem_of_removeAndCompact. by exists c, 9%nat, y.
Qed.

(** X7: in CLASSIC mode a match ends the game exactly when, the
    selected tiles gone, some column still holds ten tiles: then the
    score is awarded and the grid compacted, no row is added and the
    status is GAMEOVER.  When every column holds fewer, the compacted
    tiles move up one row, a full row is added under them and the
    status stays as it was. *)
Theorem classic_match_outcome (d : Z → TileDraw) (s : AppState) :
  fires s → mode s = CLASSIC →
  let s' := step (matchEffect d) s in
  let compacted := removeAndCompact (selectedIds s) (blocks s) in
  ((∃ c, 0 ≤ c < GRID_COLS ∧
         (10 ≤ columnHeight (selectedIds s) (blocks s) c)%nat) →
     s' = set_status GAMEOVER (resolved s) ∧ blocks s' = compacted) ∧
  ((∀ c, 0 ≤ c < GRID_COLS →
         (columnHeight (selectedIds s) (blocks s) c < 10)%nat) →
     status s' = status s ∧
     blocks s' = ((λ b, with_row b (row b - 1)) <$> compacted) ++ newRow d ∧
     length (blocks s') = (length compacted + 6)%nat) ∧
  score s' = score s + targetSum s * Z.of_nat (length (selectedIds s)).
Proof.
  intros Hf Hmode. simpl. unfold step.
  destruct (matchEffect_fires d s Hf) as [-> _]. rewrite Hmode.
  split_and!.
  - intros Hfull%compacted_row0.
    by rewrite (addRow_rejects d (resolved s) Hfull).
  - intros Hlow. rewrite addRow_accepts.
    + simpl. split_and!; [done..|].
      by rewrite length_app, length_fmap, length_newRow.
    + intros (c & Hc & Hlen)%compacted_row0.
      specialize (Hlow c Hc). unfold GRID_ROWS in *. lia.
  - upd_unfold. unfold resolved. simpl. by destruct (isGameOver _).
Qed.

Lemma classic_match_outcome_witness :
  status (step (matchEffect ninesRow) (session CLASSIC 10 bottomRow)) = PLAYING.
Proof.
  refine (proj1 (proj1 (proj2
    (classic_match_outcome ninesRow (session CLASSIC 10 bottomRow) _ _)) _)).
  - by split.
  - reflexivity.
  - intros c Hc. unfold GRID_COLS in Hc.
    assert (c = 0 ∨ c = 1 ∨ c = 2 ∨ c = 3 ∨ c = 4 ∨ c = 5) as Hcs by lia.
    destruct Hcs as [->|[->|[->|[->|[->| ->]]]]]; vm_compute; lia.
Defined.

(** ** More on the target *)

Lemma sumValues_perm (l k : list Block) : l ≡ₚ k → sumValues l = sumValues k.
Proof.
  rewrite !sumValues_sum. induction 1; csimpl; lia.
Qed.

Lemma sumValues_filter_le (P : Block → Prop) `{!∀ b, Decision (P b)} l :
  Forall (λ b, 0 ≤ value b) l →
  0 ≤ sumValues (filter P l) ≤ sumValues l.
Proof.
  induction 1 as [|b l Hb Hl IH].
  - done.
  - rewrite sum_filter_cons. rewrite (sumValues_sum (b :: l)). csimpl.
    rewrite <- sumValues_sum. case_decide; lia.
Qed.

Lemma selection_of_sample (g sample : list Block) :
  NoDup (id <$> g) → sample `sublist_of` g →
  filter (λ b, id b ∈ id <$> sample) g ≡ₚ sample.
Proof.
  intros Hnd Hsub.
  assert (Hg : NoDup g) by by apply NoDup_fmap_1 in Hnd.
  apply NoDup_Permutation.
  - by apply NoDup_filter.
  - by eapply sublist_NoDup.
  - intros b. rewrite list_elem_of_filter. split.
    + intros [(b' & E & Hb')%list_elem_of_fmap Hb].
      assert (b = b') as ->; [|done].
      apply (NoDup_fmap_inj_on id g); [done|done| |done].
      eapply elem_of_sublist; [exact Hb'|done].
    + intros Hb. split; [by apply list_elem_of_fmap_2|].
      eapply elem_of_sublist; [exact Hb|done].
Qed.

(** X8: on a grid of distinct ids and values of at most 9, a generated
    target above the floor of 10 can be met: some selection of at most
    four live tiles, no id twice, has the target as its current sum. *)
Theorem target_within_reach (t : TargetDraw) (g : list Block) :
  NoDup (id <$> g) → Forall (λ b, value b ≤ 9) g →
  10 < generateTarget t g →
  ∃ sel, (length sel ≤ 4)%nat ∧ NoDup sel ∧
         (∀ i, i ∈ sel → i ∈ id <$> g) ∧
         fires (sessionOf g (generateTarget t g) sel).
Proof.
  intros Hnd Hval Hgt.
  pose proof (shuffle_perm (drawOrder t) g) as Hperm.
  unfold generateTarget in *. case_decide as Hlen; [lia|].
  pose proof (floor_random (drawCount t) 3) as Hc.
  change (inject_Z 3) with (3 : Q) in Hc.
  set (count := Qfloor (rnd (drawCount t) * 3) + 2) in *.
  set (sample := take (Z.to_nat count) (shuffle (drawOrder t) g)) in *.
  assert (Hsub : sample `sublist_of` shuffle (drawOrder t) g)
    by apply sublist_take.
  assert (Hlen4 : (length sample ≤ 4)%nat).
  { unfold sample. rewrite length_take. lia. }
  assert (Hs9 : Forall (λ b, value b ≤ 9) sample).
  { apply Forall_take. by rewrite Hperm. }
  apply sumValues_le_9 in Hs9.
  assert (Hnd' : NoDup (id <$> shuffle (drawOrder t) g)) by by rewrite Hperm.
  exists (id <$> sample). split_and!.
  - by rewrite length_fmap.
  - eapply sublist_NoDup; [exact Hnd'|]. by apply fmap_sublist.
  - intros i (b & -> & Hb)%list_elem_of_fmap.
    apply list_elem_of_fmap_2. rewrite <- Hperm.
    eapply elem_of_sublist; [exact Hb|done].
  - unfold fires, currentSum. simpl.
    rewrite (sumValues_perm (filter _ g)
               (filter (λ b, id b ∈ id <$> sample)
                       (shuffle (drawOrder t) g)))
      by by rewrite Hperm.
    rewrite (sumValues_perm _ _ (selection_of_sample _ sample Hnd' Hsub)).
    split; lia.
Qed.

Lemma target_within_reach_witness :
  ∃ sel, (length sel ≤ 4)%nat ∧ NoDup sel ∧
         (∀ i, i ∈ sel → i ∈ id <$> twoRows) ∧
         fires (sessionOf twoRows (generateTarget frontThree twoRows) sel).
Proof.
  apply target_within_reach.
  - by_evaluation.
  - by_evaluation.
  - by vm_compute.
Defined.

(** X9: the target is at least 10 whatever the grid holds, so when the
    values of all the tiles sum to less than 10 no selection meets or
    passes it: the match effect leaves the session as it is. *)
Theorem target_out_of_reach (d : Z → TileDraw) (s : AppState) :
  Forall (λ b, 0 ≤ value b) (blocks s) → sumValues (blocks s) < 10 →
  10 ≤ targetSum s →
  currentSum s < targetSum s ∧ ¬ fires s ∧ step (matchEffect d) s = s.
Proof.
  intros Hval Hsum Htg.
  pose proof (sumValues_filter_le (λ b, id b ∈ selectedIds s) _ Hval) as Hle.
  fold (currentSum s) in Hle.
  assert (Hf : ¬ fires s) by (unfold fires; lia).
  split_and!; [lia|done|].
  unfold step. destruct (matchEffect_quiet d s Hf) as [_ ->].
  by rewrite bool_decide_eq_false_2 by lia.
Qed.

Lemma target_out_of_reach_witness :
  currentSum (sessionOf lastTile 10 ["z"]) < targetSum (sessionOf lastTile 10 ["z"]).
Proof.
  refine (proj1 (target_out_of_reach ninesRow (sessionOf lastTile 10 ["z"])
                   _ _ _)).
  - by_evaluation.
  - by vm_compute.
  - by vm_compute.
Defined.

(** ** A new game *)

(** X10: a new game does not depend on the session it replaces: from
    any two sessions the same draws and mode give the same session.  Its
    grid fills rows 6..9, one tile on each of the 24 cells; nothing is
    selected, so the match effect finds no match; and the countdown
    runs exactly in TIME mode.  "Try again" is a new game in the mode
    of the session it is clicked in. *)
Theorem initGame_restart (d : Z → Z → TileDraw) (t : TargetDraw) (m : GameMode)
    (s s' : AppState) :
  let s1 := next (initGame d t m) s in
  next (initGame d t m) s' = s1 ∧
  cell <$> blocks s1
    = (r ← seqZ (GRID_ROWS - INITIAL_ROWS) INITIAL_ROWS;
       (λ c, (r, c)) <$> seqZ 0 GRID_COLS) ∧
  currentSum s1 = 0 ∧
  (∀ d', step (matchEffect d') s1 = s1) ∧
  (timerRunning s1 = true ↔ m = TIME) ∧
  step (tryAgainButton d t) s = next (initGame d t (mode s)) s.
Proof.
  assert (E : ∀ s, next (initGame d t m) s
                = mkApp PLAYING m (initialBlocks d)
                        (generateTarget t (initialBlocks d)) [] 0
                        TIME_LIMIT false) by done.
  cbv zeta. rewrite !E.
  pose proof (generateTarget_range t (initialBlocks d)) as Ht.
  generalize dependent (generateTarget t (initialBlocks d)). intros tg E Ht.
  split_and!.
  - done.
  - by vm_compute.
  - by apply currentSum_no_selection.
  - intros d'. unfold step.
    set (s1 := mkApp PLAYING m (initialBlocks d) tg [] 0 TIME_LIMIT false).
    assert (H0 : currentSum s1 = 0) by by apply currentSum_no_selection.
    assert (Hf : ¬ fires s1) by (unfold fires; simpl; lia).
    destruct (matchEffect_quiet d' s1 Hf) as [_ ->].
    rewrite bool_decide_eq_false_2; [done|]. simpl. lia.
  - unfold timerRunning. simpl. by destruct m.
  - done.
Qed.

(** ** Successive compactions *)

Section sort_filter.
Context {A : Type} (key : A → Z).
Implicit Types (l : list A) (P : A → Prop).

Lemma sort_insert_front x l :
  Forall (λ z, key z ≤ key x) l →
  sort_insert (λ a b, key b - key a) x l = x :: l.
Proof.
  destruct 1 as [|z l Hz Hl]; [done|]. simpl. by rewrite decide_True by lia.
Qed.

Lemma array_sort_sorted l :
  descending key l → array_sort (λ a b, key b - key a) l = l.
Proof.
  unfold descending. induction 1 as [|y l Hl IH Hy]; [done|].
  simpl. fold (array_sort (λ a b : A, key b - key a) l).
  rewrite IH. by apply sort_insert_front.
Qed.

Lemma sort_insert_filter P `{!∀ x, Decision (P x)} x l :
  descending key l →
  filter P (sort_insert (λ a b, key b - key a) x l)
    = if decide (P x)
      then sort_insert (λ a b, key b - key a) x (filter P l)
      else filter P l.
Proof.
  unfold descending. induction 1 as [|y l Hl IH Hy]; simpl.
  - rewrite filter_cons, filter_nil. by case_decide.
  - destruct (decide (key y - key x ≤ 0)) as [Hxy|Hxy].
    + rewrite (filter_cons _ x). case_decide; [|done].
      rewrite sort_insert_front; [done|].
      apply Forall_forall. intros z [_ Hz]%list_elem_of_filter.
      apply elem_of_cons in Hz as [->|Hz]; [lia|].
      rewrite Forall_forall in Hy. specialize (Hy z Hz). simpl in Hy. lia.
    + rewrite !(filter_cons _ y), IH.
      destruct (decide (P y)), (decide (P x)); simpl; try done.
      by rewrite decide_False by lia.
Qed.

Lemma array_sort_filter P `{!∀ x, Decision (P x)} l :
  filter P (array_sort (λ a b, key b - key a) l)
    = array_sort (λ a b, key b - key a) (filter P l).
Proof.
  induction l as [|x l IH]; [done|].
  simpl. fold (array_sort (λ a b : A, key b - key a) l).
  rewrite sort_insert_filter by apply array_sort_descending.
  rewrite filter_cons, IH. by case_decide.
Qed.
End sort_filter.

Lemma imap_Forall2_ext {A B} (R : A → A → Prop) (f : nat → A → B) l k :
  Forall2 R l k → (∀ i a b, R a b → f i a = f i b) → imap f l = imap f k.
Proof.
  intros HR. revert f. induction HR as [|a b l k Hab Hlk IH]; intros f Hf.
  - done.
  - simpl. f_equal; [by apply Hf|]. apply IH. intros i x y. apply Hf.
Qed.

Lemma Forall2_filter {A} (R : A → A → Prop) (P : A → Prop)
    `{!∀ x, Decision (P x)} l k :
  Forall2 R l k → (∀ a b, R a b → P a ↔ P b) →
  Forall2 R (filter P l) (filter P k).
Proof.
  intros HR HP. induction HR as [|a b l k Hab Hlk IH]; [constructor|].
  rewrite !filter_cons. pose proof (HP a b Hab).
  destruct (decide (P a)), (decide (P b)); try tauto. by constructor.
Qed.

Lemma settle_descending l : descending row (settle l).
Proof.
  unfold settle. generalize (GRID_ROWS - 1) as n.
  induction l as [|b l IH]; intros n; [constructor|].
  simpl. constructor.
  - rewrite (imap_ext _ (λ idx b, with_row b (n - 1 - Z.of_nat idx)));
      [apply IH|].
    intros i x _. simpl. f_equal. lia.
  - apply Forall_forall.
    intros x (i & y & -> & _)%elem_of_lookup_imap_1. simpl. lia.
Qed.

Lemma settle_filter_settle (P : Block → Prop) `{!∀ b, Decision (P b)} l :
  (∀ a b, tile_data a = tile_data b → P a ↔ P b) →
  settle (filter P (settle l)) = settle (filter P l).
Proof.
  intros HP. unfold settle at 1 3.
  apply (imap_Forall2_ext (λ a b, tile_data a = tile_data b)).
  - apply Forall2_filter; [|done].
    apply Forall2_flip. apply settle_pairs.
  - intros i [] [] [= -> -> -> ->]. done.
Qed.

(** X11: compacting twice is compacting once with both sets of ids,
    tile for tile in the same order; in particular a second compaction
    that removes nothing changes nothing. *)
Theorem removeAndCompact_twice (ids1 ids2 : list string) (g : list Block) :
  removeAndCompact ids2 (removeAndCompact ids1 g)
    = removeAndCompact (ids1 ++ ids2) g ∧
  removeAndCompact [] (removeAndCompact ids1 g) = removeAndCompact ids1 g.
Proof.
  assert (H : ∀ ids2, removeAndCompact ids2 (removeAndCompact ids1 g)
                      = removeAndCompact (ids1 ++ ids2) g).
  { clear ids2. intros ids2. unfold removeAndCompact at 1 3.
    apply Forall_bind_ext, Forall_forall. intros c Hc.
    unfold columnBlocks at 1.
    rewrite filter_comm, removeAndCompact_column, decide_True by done.
    rewrite <- (array_sort_filter row), (array_sort_sorted row)
      by apply settle_descending.
    rewrite settle_filter_settle.
    2:{ intros a b [= E _ _ _]. by rewrite E. }
    f_equal. unfold columnBlocks. rewrite (array_sort_filter row).
    f_equal. rewrite filter_comm. f_equal.
    rewrite list_filter_filter. apply list_filter_iff.
    intros b. rewrite elem_of_app. tauto. }
  split; [apply H|]. by rewrite H, app_nil_r.
Qed.

(** ** An untouched TIME game *)

Lemma ticks_add (n m : nat) (d : nat → Z → TileDraw) (s : AppState) :
  ticks (n + m) d s
    = let '(s1, t1) := ticks n d s in
      let '(s2, t2) := ticks m (λ j, d (n + j)%nat) s1 in
      (s2, t1 ++ t2).
Proof.
  induction m as [|m IH].
  - rewrite Nat.add_0_r. simpl. destruct (ticks n d s) as [s1 t1].
    by rewrite app_nil_r.
  - rewrite Nat.add_succ_r. simpl. rewrite IH.
    destruct (ticks n d s) as [s1 t1].
    destruct (ticks m _ s1) as [s2 t2]. by rewrite app_assoc.
Qed.

(** X12: a TIME game nobody touches lasts 70 ticks, whatever tiles are
    drawn.  The rows added at ticks 10, 20, ..., 60 fill the grid; the
    seventh [addRow], at tick 70, is rejected: the status is PLAYING
    before tick 70 and GAMEOVER from then on, with 60 tiles and seven
    calls of [addRow] in all, and later ticks change nothing. *)
Theorem idle_time_game (d0 : Z → Z → TileDraw) (t : TargetDraw)
    (e : nat → Z → TileDraw) (s0 : AppState) :
  let s := next (initGame d0 t TIME) s0 in
  (∀ k, (k < 70)%nat → status (ticks k e s).1 = PLAYING) ∧
  status (ticks 70 e s).1 = GAMEOVER ∧
  length (blocks (ticks 70 e s).1) = 60%nat ∧
  (ticks 70 e s).2 = replicate 7 CallAddRow ∧
  (∀ k, (70 ≤ k)%nat → ticks k e s = ticks 70 e s).
Proof.
  intros s.
  assert (Es : s = mkApp PLAYING TIME (initialBlocks d0)
                     (generateTarget t (initialBlocks d0)) [] 0 TIME_LIMIT false)
    by done.
  clearbody s. generalize dependent (generateTarget t (initialBlocks d0)).
  intros tg ->.
  split_and!.
  - intros k Hk.
    assert (Hall : Forall (λ k, status (ticks k e
                     (mkApp PLAYING TIME (initialBlocks d0) tg [] 0
                            TIME_LIMIT false)).1 = PLAYING) (seq 0 70))
      by by_evaluation.
    rewrite Forall_forall in Hall. apply Hall, elem_of_seq. lia.
  - by vm_compute.
  - by vm_compute.
  - by vm_compute.
  - intros k Hk. replace k with (70 + (k - 70))%nat by lia.
    rewrite ticks_add.
    destruct (ticks 70 e _) as [s1 t1] eqn:E.
    assert (Hover : status s1 = GAMEOVER).
    { change s1 with (s1, t1).1. rewrite <- E. by vm_compute. }
    rewrite ticks_idle, app_nil_r; [done|].
    unfold timerRunning. by rewrite Hover.
Qed.

(** X13: the countdown from any value.  While the timer runs with [n]
    seconds left ([n] at least 1), the next [n - 1] ticks only count
    down and call nothing, and the [n]-th calls [addRow], once, and
    puts the countdown back to TIME_LIMIT. *)
Theorem next_spawn_after (d : nat → Z → TileDraw) (s : AppState) :
  timerRunning s = true → 1 ≤ timeLeft s →
  let n := Z.to_nat (timeLeft s) in
  (∀ k, (k < n)%nat →
     ticks k d s = (set_timeLeft (timeLeft s - Z.of_nat k) s, [])) ∧
  (ticks n d s).2 = [CallAddRow] ∧
  timeLeft (ticks n d s).1 = TIME_LIMIT.
Proof.
  intros Hrun Ht n.
  assert (Hk : ∀ k, (k < n)%nat →
     ticks k d s = (set_timeLeft (timeLeft s - Z.of_nat k) s, [])).
  { intros k Hk. by apply ticks_countdown. }
  split; [done|].
  assert (En : n = S (n - 1)) by lia.
  rewrite En. simpl. rewrite Hk by lia.
  destruct (tick_reset (d (n - 1)%nat)
              (set_timeLeft (timeLeft s - Z.of_nat (n - 1)) s))
    as [-> ->]; [done|simpl; lia|].
  done.
Qed.

Lemma next_spawn_after_witness :
  (ticks 3 everyTick (mkApp PLAYING TIME twoRows 10 [] 0 3 false)).2
    = [CallAddRow].
Proof.
  refine (proj1 (proj2 (next_spawn_after everyTick
            (mkApp PLAYING TIME twoRows 10 [] 0 3 false) _ _))).
  - reflexivity.
  - by vm_compute.
Defined.

(** ** The roof *)

Lemma full_column_rows (g : list Block) c :
  at_rest g → gapless g →
  (∃ b, b ∈ g ∧ col b = c ∧ row b = 0) →
  (Z.to_nat GRID_ROWS ≤ length (filter (λ b, col b = c) g))%nat.
Proof.
  intros [Hg Hnd] Hgap (b & Hb & Hc & Hr).
  rewrite <- (length_seqZ 0 GRID_ROWS),
          <- (length_fmap row (filter _ g)).
  apply submseteq_length, NoDup_submseteq; [apply NoDup_seqZ|].
  intros r Hrange%elem_of_seqZ.
  destruct (decide (r = 0)) as [->|Hne].
  - apply list_elem_of_fmap. exists b. split; [done|].
    by apply list_elem_of_filter.
  - destruct (Hgap b r Hb) as (b' & Hb' & Hc' & Hr'); [lia|].
    apply list_elem_of_fmap. exists b'. split; [done|].
    apply list_elem_of_filter. split; [congruence|done].
Qed.

Lemma row0_of_full_column (g : list Block) c :
  at_rest g →
  (Z.to_nat GRID_ROWS ≤ length (filter (λ b, col b = c) g))%nat →
  ∃ b, b ∈ g ∧ col b = c ∧ row b = 0.
Proof.
  intros [Hg Hnd] Hlen.
  set (colc := filter (λ b, col b = c) g) in *.
  assert (Hnd' : NoDup (row <$> colc)).
  { apply NoDup_fmap_2_strong.
    - intros x y [Hx Hx']%list_elem_of_filter [Hy Hy']%list_elem_of_filter Hr.
      apply (NoDup_fmap_inj_on cell g); [done..|].
      unfold cell. congruence.
    - eapply sublist_NoDup; [|apply sublist_filter].
      by apply NoDup_fmap_1 in Hnd. }
  assert (Hsub : row <$> colc ⊆+ seqZ 0 GRID_ROWS).
  { apply NoDup_submseteq; [done|].
    intros r (b & -> & [_ Hb]%list_elem_of_filter)%list_elem_of_fmap.
    rewrite Forall_forall in Hg. apply elem_of_seqZ.
    specialize (Hg b Hb). lia. }
  apply submseteq_length_Permutation in Hsub.
  2:{ rewrite length_seqZ, length_fmap. done. }
  assert (H0 : 0 ∈ row <$> colc).
  { rewrite Hsub. apply elem_of_seqZ. unfold GRID_ROWS. lia. }
  apply list_elem_of_fmap in H0 as (b & Hr & [Hc Hb]%list_elem_of_filter).
  by exists b.
Qed.

(** X14: in a session the app can reach, a tile sits on the top row
    exactly when some column holds ten tiles; so [addRow] rejects the
    row, and ends the game, exactly when a column is full. *)
Theorem roof_means_full_column (d : Z → TileDraw) (s : AppState) :
  reachable s →
  (Exists (λ b, row b = 0) (blocks s) ↔
   ∃ c, length (filter (λ b, col b = c) (blocks s)) = 10%nat) ∧
  (status (next (addRow d) s) = GAMEOVER ↔
   status s = GAMEOVER ∨
   ∃ c, length (filter (λ b, col b = c) (blocks s)) = 10%nat).
Proof.
  intros (Hrest & Hgap & _)%reachable_steady.
  assert (Hroof : Exists (λ b, row b = 0) (blocks s) ↔
            ∃ c, length (filter (λ b, col b = c) (blocks s)) = 10%nat).
  { rewrite Exists_exists. split.
    - intros (b & Hb & Hr). exists (col b).
      pose proof (full_column_rows (blocks s) (col b) Hrest Hgap) as Hlow.
      pose proof (column_height (blocks s) (col b)) as Hhigh.
      destruct Hrest as [Hg Hnd].
      assert (Forall (λ b, 0 ≤ row b < GRID_ROWS) (blocks s)).
      { eapply Forall_impl; [exact Hg|]. simpl. tauto. }
      unfold GRID_ROWS in *.
      assert (10 ≤ length (filter (λ b0, col b0 = col b) (blocks s)))%nat
        by (apply Hlow; eauto).
      assert (length (filter (λ b0, col b0 = col b) (blocks s)) ≤ 10)%nat
        by by apply Hhigh.
      lia.
    - intros (c & Hlen).
      destruct (row0_of_full_column (blocks s) c Hrest) as (b & Hb & _ & Hr).
      + rewrite Hlen. unfold GRID_ROWS. lia.
      + eauto. }
  split; [done|]. rewrite <- Hroof.
  destruct (decide (Exists (λ b, row b = 0) (blocks s))) as [H0|H0].
  - rewrite (addRow_rejects d s H0). simpl. tauto.
  - rewrite addRow_accepts by done. simpl. tauto.
Qed.

Lemma roof_means_full_column_witness :
  Exists (λ b, row b = 0) (blocks firstRender) ↔
  ∃ c, length (filter (λ b, col b = c) (blocks firstRender)) = 10%nat.
Proof.
  refine (proj1 (roof_means_full_column ninesRow firstRender _)).
  apply reach_step, reach_mounted.
Defined.

(** ** The footer *)

Lemma floor_quotient (n : Z) (m : positive) :
  Qfloor (inject_Z n / inject_Z (Z.pos m)) = n `div` Z.pos m.
Proof. symmetry. apply Zdiv_Qdiv. Qed.

(** X15: the footer.  The level shown is [score div 5000 + 1]: level
    [L] while [5000 (L-1) ≤ score < 5000 L], and at least 1 for a score
    that is not negative.  Dot [i] of the five is filled exactly when
    the score is above [1000 i]. *)
Theorem footer_progress (score : Z) :
  level score = score `div` 5000 + 1 ∧
  5000 * (level score - 1) ≤ score < 5000 * level score ∧
  (0 ≤ score → 1 ≤ level score) ∧
  dots score = (λ i, bool_decide (1000 * i < score)) <$> seqZ 0 5.
Proof.
  assert (E : level score = score `div` 5000 + 1).
  { unfold level. f_equal. exact (floor_quotient score 5000). }
  split_and!.
  - done.
  - rewrite E. pose proof (Z.div_mod score 5000).
    pose proof (Z.mod_pos_bound score 5000). lia.
  - rewrite E. pose proof (Z.div_mod score 5000).
    pose proof (Z.mod_pos_bound score 5000). lia.
  - rewrite E. intros H. pose proof (Z.div_pos score 5000). lia.
  - unfold dots. apply list_fmap_ext. intros _ i _.
    destruct (Qlt_le_dec _ _) as [H|H]; symmetry.
    + apply bool_decide_eq_true_2. unfold Qlt in H. simpl in H. lia.
    + apply bool_decide_eq_false_2. unfold Qle in H. simpl in H. lia.
Qed.

(** ** What a match removes *)

Lemma sumValues_between (l : list Block) :
  Forall (λ b, 1 ≤ value b ≤ 9) l →
  Z.of_nat (length l) ≤ sumValues l ≤ 9 * Z.of_nat (length l).
Proof.
  rewrite sumValues_sum. induction 1 as [|b l Hb Hl IH]; csimpl; lia.
Qed.

(** X16: in a session the app can reach, a match removes at least two
    tiles and at most 36: the target is at least 10 and no tile is
    worth more than 9 or less than 1. *)
Theorem match_removes_two_or_more (s : AppState) :
  reachable s → fires s →
  10 ≤ targetSum s ≤ 36 ∧
  (2 ≤ length (filter (λ b, id b ∈ selectedIds s) (blocks s)) ≤ 36)%nat.
Proof.
  intros (Hrest & _ & _ & Htg & _)%reachable_steady [Hsum Hpos].
  destruct Hrest as [Hg _].
  assert (Hf : Forall (λ b, 1 ≤ value b ≤ 9)
                 (filter (λ b, id b ∈ selectedIds s) (blocks s))).
  { apply Forall_forall. intros b [_ Hb]%list_elem_of_filter.
    rewrite Forall_forall in Hg. by apply Hg. }
  apply sumValues_between in Hf. fold (currentSum s) in Hf. lia.
Qed.

Lemma match_removes_two_or_more_witness :
  10 ≤ targetSum threeSelected ≤ 36 ∧
  (2 ≤ length (filter (λ b, id b ∈ selectedIds threeSelected)
                 (blocks threeSelected)) ≤ 36)%nat.
Proof.
  apply match_removes_two_or_more.
  - do 4 apply reach_step. apply reach_mounted.
  - by vm_compute.
Defined.

(** ** Gravity *)

Lemma column_rows_NoDup (g l : list Block) c :
  NoDup (cell <$> g) → (∀ x, x ∈ l → x ∈ g ∧ col x = c) → NoDup l →
  NoDup (row <$> l).
Proof.
  intros Hnd Hl Hndl. apply NoDup_fmap_2_strong; [|done].
  intros x y [Hx Hcx]%Hl [Hy Hcy]%Hl Hr.
  apply (NoDup_fmap_inj_on cell g); [done..|].
  unfold cell. congruence.
Qed.

(** The tiles under a tile of a grid at rest without gaps. *)
Lemma tiles_below (g : list Block) b :
  at_rest g → gapless g → b ∈ g →
  Z.of_nat (length (filter (λ x, col x = col b ∧ row b < row x) g))
    = GRID_ROWS - 1 - row b.
Proof.
  intros [Hg Hnd] Hgap Hb.
  set (below := filter (λ x, col x = col b ∧ row b < row x) g).
  assert (Hperm : row <$> below ≡ₚ seqZ (row b + 1) (GRID_ROWS - 1 - row b)).
  { apply NoDup_Permutation.
    - apply (column_rows_NoDup g below (col b)); [done| |].
      + intros x [[? _] ?]%list_elem_of_filter. done.
      + apply NoDup_filter. by apply NoDup_fmap_1 in Hnd.
    - apply NoDup_seqZ.
    - intros r. rewrite elem_of_seqZ, list_elem_of_fmap. split.
      + intros (x & -> & [[_ Hlt] Hx]%list_elem_of_filter).
        rewrite Forall_forall in Hg. specialize (Hg x Hx). lia.
      + intros Hr. destruct (Hgap b r Hb) as (b' & Hb' & Hc & Hr'); [lia|].
        exists b'. split; [done|]. apply list_elem_of_filter.
        split; [|done]. split; [done|lia]. }
  apply Permutation_length in Hperm.
  rewrite length_fmap, length_seqZ in Hperm.
  rewrite Forall_forall in Hg. specialize (Hg b Hb). lia.
Qed.

Lemma index_counts_above {A} (key : A → Z) (l : list A) (i : nat) y :
  descending key l → NoDup (key <$> l) → l !! i = Some y →
  length (filter (λ x, key y < key x) l) = i.
Proof.
  unfold descending. intros Hs. revert i.
  induction Hs as [|a l Hl IH Ha]; intros i Hnd Hi; [done|].
  rewrite fmap_cons in Hnd. apply NoDup_cons in Hnd as [Hna Hnd].
  destruct i as [|j]; simpl in Hi.
  - injection Hi as ->. rewrite filter_cons_False by lia.
    rewrite filter_none; [done|].
    eapply Forall_impl; [exact Ha|]. simpl. lia.
  - assert (key y < key a).
    { pose proof (list_elem_of_lookup_2 _ _ _ Hi) as Hy.
      rewrite Forall_forall in Ha. specialize (Ha y Hy). simpl in Ha.
      assert (key y ≠ key a).
      { intros E. apply Hna. rewrite <- E. by apply list_elem_of_fmap_2. }
      lia. }
    rewrite filter_cons_True by done. simpl. f_equal. by apply IH.
Qed.

(** [gapless], cell by cell. *)
Lemma gapless_checked (g : list Block) :
  Forall (λ b, Forall (λ r, Exists (λ b', col b' = col b ∧ row b' = r) g)
                      (seqZ (row b + 1) (GRID_ROWS - 1 - row b))) g →
  gapless g.
Proof.
  intros H b r Hb Hr. rewrite Forall_forall in H. specialize (H b Hb).
  rewrite Forall_forall in H.
  destruct (proj1 (Exists_exists _ _) (H r ltac:(apply elem_of_seqZ; lia)))
    as (b' & Hb' & Hc & Hr').
  by exists b'.
Qed.

(** X17: gravity.  In a grid at rest without gaps, every tile that is
    not removed is found after the compaction with its id, value and
    column, lower by exactly the number of removed tiles that were
    under it in its column. *)
Theorem survivors_fall (removedIds : list string) (g : list Block) (b : Block) :
  at_rest g → gapless g → b ∈ g → id b ∉ removedIds →
  ∃ b', b' ∈ removeAndCompact removedIds g ∧
        tile_data b' = tile_data b ∧
        row b' = row b + Z.of_nat (removedBelow removedIds g b).
Proof.
  intros Hrest Hgap Hb Hid.
  set (R := filter (λ b, id b ∉ removedIds) g).
  set (olds := columnBlocks (col b) R).
  assert (Hin : b ∈ olds).
  { unfold olds. rewrite columnBlocks_perm.
    apply list_elem_of_filter. split; [done|].
    by apply list_elem_of_filter. }
  apply list_elem_of_lookup_1 in Hin as [i Hi].
  exists (with_row b (GRID_ROWS - 1 - Z.of_nat i)). split_and!.
  - apply elem_of_removeAndCompact. exists (col b), i, b.
    split_and!; [| |done|done];
      destruct Hrest as [Hg _]; rewrite Forall_forall in Hg;
      specialize (Hg b Hb); lia.
  - done.
  - simpl.
    assert (Hnd : NoDup (row <$> olds)).
    { destruct Hrest as [_ Hnd].
      apply (column_rows_NoDup g olds (col b)); [done| |].
      - intros x Hx. unfold olds in Hx. rewrite columnBlocks_perm in Hx.
        apply list_elem_of_filter in Hx as [? [_ ?]%list_elem_of_filter].
        done.
      - unfold olds. rewrite columnBlocks_perm.
        do 2 apply NoDup_filter. by apply NoDup_fmap_1 in Hnd. }
    pose proof (index_counts_above row olds i b
                  (array_sort_descending row _) Hnd Hi) as Hidx.
    assert (Hsurv : length (filter (λ x, row b < row x) olds)
                    = length (filter (λ x, ¬ id x ∈ removedIds)
                        (filter (λ x, col x = col b ∧ row b < row x) g))).
    { unfold olds. rewrite columnBlocks_perm. unfold R.
      rewrite !list_filter_filter. f_equal. apply list_filter_iff.
      intros x. tauto. }
    assert (Hrem : removedBelow removedIds g b
                   = length (filter (λ x, id x ∈ removedIds)
                       (filter (λ x, col x = col b ∧ row b < row x) g))).
    { unfold removedBelow. rewrite list_filter_filter. f_equal.
      apply list_filter_iff. intros x. tauto. }
    pose proof (tiles_below g b Hrest Hgap Hb) as Hbelow.
    rewrite <- (filter_app_complement (λ x, id x ∈ removedIds)
                  (filter (λ x, col x = col b ∧ row b < row x) g)) in Hbelow.
    rewrite length_app in Hbelow. lia.
Qed.

Lemma survivors_fall_witness :
  ∃ b', b' ∈ removeAndCompact ["a0"] twoRows ∧
        tile_data b' = tile_data (tile "b0" 9 8 0) ∧
        row b' = 8 + Z.of_nat (removedBelow ["a0"] twoRows (tile "b0" 9 8 0)).
Proof.
  apply (survivors_fall ["a0"] twoRows (tile "b0" 9 8 0)).
  - split; by_evaluation.
  - apply gapless_checked. by_evaluation.
  - apply list_elem_of_In. simpl. tauto.
  - by_evaluation.
Defined.
